(** * Notion help-docs scraper: chunking pipeline of [main.py]

    A shallow embedding of the pure parts of [main.py] together with the
    properties of the chunker, the URL discoverer, the fetcher, the
    whitespace post-processing and the result file.

    Python strings are sequences of Unicode code points; a character is
    its code point (an [N]) and a string is a list of characters.  The
    library functions the program calls ([str.strip], [str.splitlines],
    [re.split], [re.sub], [repr]) are given by their documented behaviour
    on such sequences. *)

From Stdlib Require Import String Ascii.
From Stdlib Require Import List NArith ZArith Lia Bool Arith.
Import ListNotations.

Local Open Scope N_scope.

(* ================================================================== *)
(** * Characters and strings *)
(* ================================================================== *)

Definition char := N.
Definition str := list char.

(** Code points of a literal (used for constants and examples). *)
Definition of_string (s : string) : str :=
  map N_of_ascii (list_ascii_of_string s).

Definition NL : char := 10.        (* "\n" *)
Definition CR : char := 13.        (* "\r" *)
Definition TAB : char := 9.        (* "\t" *)
Definition SPACE : char := 32.
Definition HASH : char := 35.      (* "#" *)

Definition is_nl (c : char) : bool := c =? NL.
Definition is_hash (c : char) : bool := c =? HASH.

(** [str.isspace] on one character, which is also what [\s] matches in a
    [str] pattern and what [str.strip()] removes. *)
Definition is_space (c : char) : bool :=
  ((0x09 <=? c) && (c <=? 0x0D)) || ((0x1C <=? c) && (c <=? 0x1F))
  || (c =? 0x20) || (c =? 0x85) || (c =? 0xA0) || (c =? 0x1680)
  || ((0x2000 <=? c) && (c <=? 0x200A)) || (c =? 0x2028) || (c =? 0x2029)
  || (c =? 0x202F) || (c =? 0x205F) || (c =? 0x3000).

(** The line boundaries of [str.splitlines]. *)
Definition is_linebreak (c : char) : bool :=
  ((0x0A <=? c) && (c <=? 0x0D)) || ((0x1C <=? c) && (c <=? 0x1E))
  || (c =? 0x85) || (c =? 0x2028) || (c =? 0x2029).

(** Python [len], as an integer. *)
Definition len (s : str) : Z := Z.of_nat (length s).

(** [span p s]: the longest prefix of [s] whose characters satisfy [p],
    and what follows it. *)
Fixpoint span (p : char -> bool) (s : str) : str * str :=
  match s with
  | [] => ([], [])
  | c :: r => if p c then let '(a, b) := span p r in (c :: a, b)
              else ([], s)
  end.

Fixpoint dropwhile (p : char -> bool) (s : str) : str :=
  match s with
  | [] => []
  | c :: r => if p c then dropwhile p r else s
  end.

Definition lstrip (s : str) : str := dropwhile is_space s.
Definition rstrip (s : str) : str := rev (dropwhile is_space (rev s)).

(** [s.strip()] *)
Definition strip (s : str) : str := rstrip (lstrip s).

(** ["\n".join(lines)] *)
Fixpoint join_nl (lines : list str) : str :=
  match lines with
  | [] => []
  | [l] => l
  | l :: rest => l ++ NL :: join_nl rest
  end.

(* ================================================================== *)
(** * The chunker: [split_markdown] *)
(* ================================================================== *)

(** One attempt to match [^#+\s.*?$] (flag MULTILINE) at a position that
    is the start of a line; [s] is the text from that position on.  The
    result is the matched text and the text after it.

    [#+] takes the whole run of ["#"]: giving one back would leave a ["#"]
    for [\s], which is not whitespace.  [\s] takes one whitespace
    character, a newline included.  [.] is any character but a newline
    and [$] holds at the end of the text and before a newline, so the
    lazy [.*?] stops at the first of these, which is the end of the
    maximal newline-free run. *)
Definition match_heading (s : str) : option (str * str) :=
  let '(hashes, r1) := span is_hash s in
  match hashes, r1 with
  | _ :: _, c :: r2 =>
      if is_space c then
        let '(line, r3) := span (fun x => negb (is_nl x)) r2 in
        Some (hashes ++ c :: line, r3)
      else None
  | _, _ => None
  end.

(** The search loop of [re.split(r'(^#+\s.*?$)', text, flags=re.MULTILINE)].
    [s] is the text not yet examined, [bol] tells whether the current
    position is the start of a line ([^]), [gap] is the text passed over
    since the last match.  On a match the gap and the captured group are
    emitted and the search resumes after the match; otherwise one
    character is passed over.  Every step consumes a character, so
    [length s] steps are enough. *)
Fixpoint re_split_from (fuel : nat) (bol : bool) (gap s : str) : list str :=
  match fuel with
  | O => [gap ++ s]
  | S fuel' =>
      match (if bol then match_heading s else None) with
      | Some (h, rest) =>
          gap :: h :: re_split_from fuel' (is_nl (last h 0)) [] rest
      | None =>
          match s with
          | [] => [gap]
          | c :: r => re_split_from fuel' (is_nl c) (gap ++ [c]) r
          end
      end
  end.

Definition re_split_headings (text : str) : list str :=
  re_split_from (S (length text)) true [] text.

(** [range(start, stop, step)] for a positive step. *)
Fixpoint range_from (n start step : nat) : list nat :=
  match n with
  | O => []
  | S n' => start :: range_from n' (start + step) step
  end.

Definition range (start stop step : nat) : list nat :=
  range_from ((stop - start + (step - 1)) / step) start step.

(** The state of the loop of [split_markdown]: [sections] and
    [current_section]. *)
Definition chunker_state := (list str * str)%type.

(** One iteration of [for i in range(1, len(headlines), 2)]. *)
Definition split_step (headlines : list str) (max_chunk_size : Z)
    (st : chunker_state) (i : nat) : chunker_state :=
  let '(sections, current_section) := st in
  let headline := nth i headlines [] in
  let content :=
    if (i + 1 <? length headlines)%nat then nth (i + 1) headlines [] else [] in
  let '(sections, current_section) :=
    if negb (len current_section =? 0)%Z
       && (len current_section + len headline + len content >? max_chunk_size)%Z
    then (sections ++ [strip current_section], [])
    else (sections, current_section) in
  (sections, current_section ++ headline ++ content).

Definition split_markdown (markdown_text : str) (max_chunk_size : Z) : list str :=
  let headlines := re_split_headings markdown_text in
  let '(sections, current_section) :=
    fold_left (split_step headlines max_chunk_size)
              (range 1 (length headlines) 2) ([], []) in
  match current_section with
  | [] => sections
  | _ :: _ => sections ++ [strip current_section]
  end.

(** The default [max_chunk_size=750]. *)
Definition default_max_chunk_size : Z := 750.

(** ** Vocabulary of the chunker's properties *)

(** A heading-section: a heading line and the text up to the next one. *)
Definition section := (str * str)%type.

Definition section_text (p : section) : str := fst p ++ snd p.

Definition sections_text (g : list section) : str :=
  concat (map section_text g).

Fixpoint interleave (ps : list section) : list str :=
  match ps with
  | [] => []
  | (h, b) :: r => h :: b :: interleave r
  end.

(** The same search as [re_split_from], with its result read as the text
    before the first heading and the heading-sections after it. *)
Fixpoint scan (fuel : nat) (bol : bool) (gap s : str) : str * list section :=
  match fuel with
  | O => (gap ++ s, [])
  | S fuel' =>
      match (if bol then match_heading s else None) with
      | Some (h, rest) =>
          let '(body, more) := scan fuel' (is_nl (last h 0)) [] rest in
          (gap, (h, body) :: more)
      | None =>
          match s with
          | [] => (gap, [])
          | c :: r => scan fuel' (is_nl c) (gap ++ [c]) r
          end
      end
  end.

(** The text before the first heading line, and the heading-sections. *)
Definition preamble (text : str) : str :=
  fst (scan (S (length text)) true [] text).

Definition heading_sections (text : str) : list section :=
  snd (scan (S (length text)) true [] text).

(** A heading line occurs in [text]: the pattern matches at some start of
    a line. *)
Definition has_heading (text : str) : Prop :=
  exists a b h rest,
    text = a ++ b /\ (a = [] \/ last a 0 = NL) /\ match_heading b = Some (h, rest).

(** The chunks are the pieces with their outer whitespace removed, and the
    pieces, put one after the other, are the text. *)
Definition lossless_partition (text : str) (chunks : list str) : Prop :=
  exists pieces, concat pieces = text /\ chunks = map strip pieces.

(** A line without whitespace at either end. *)
Definition line_stripped (l : str) : Prop := strip l = l.

(** The lines of a text, cut at its newlines. *)
Fixpoint lines_nl (cur s : str) : list str :=
  match s with
  | [] => [cur]
  | c :: r => if is_nl c then cur :: lines_nl [] r else lines_nl (cur ++ [c]) r
  end.

(** No three newlines in a row, that is, no two blank lines in a row. *)
Fixpoint no_triple_nl (s : str) : bool :=
  match s with
  | a :: ((b :: c :: _) as r) =>
      negb (is_nl a && is_nl b && is_nl c) && no_triple_nl r
  | _ => true
  end.

(** The texts the extractor produces: no whitespace at either end of a
    line, and never more than one blank line in a row. *)
Definition NormalizedText (text : str) : Prop :=
  Forall line_stripped (lines_nl [] text) /\ no_triple_nl text = true.

Definition starts_with_hash (s : str) : Prop := exists r, s = HASH :: r.

(** A group of sections respects the bound: it is one section, or its
    text is within [max_chunk_size]. *)
Definition within_bound (max_chunk_size : Z) (g : list section) : Prop :=
  (2 <= length g)%nat -> (len (sections_text g) <= max_chunk_size)%Z.

(** The loop of [split_markdown] read over the heading-sections instead
    of over the indices of [headlines]. *)
Definition section_step (max_chunk_size : Z) (st : chunker_state)
    (p : section) : chunker_state :=
  let '(sections, current_section) := st in
  let '(sections, current_section) :=
    if negb (len current_section =? 0)%Z
       && (len current_section + len (fst p) + len (snd p) >? max_chunk_size)%Z
    then (sections ++ [strip current_section], [])
    else (sections, current_section) in
  (sections, current_section ++ fst p ++ snd p).

(** What follows the loop: [if current_section: sections.append(...)]. *)
Definition finish (st : chunker_state) : list str :=
  match snd st with
  | [] => fst st
  | _ :: _ => fst st ++ [strip (snd st)]
  end.

(** The chunk made of a group of consecutive heading-sections. *)
Definition chunk_of (g : list section) : str := strip (sections_text g).

(** The pattern matches somewhere in [s], where [bol] tells whether [s]
    itself begins at the start of a line. *)
Definition heading_occurs (bol : bool) (s : str) : Prop :=
  exists a b h rest,
    s = a ++ b /\ (a = [] /\ bol = true \/ last a 0 = NL)
    /\ match_heading b = Some (h, rest).

(** A chunk respects the bound: the group it is made of is a single
    heading-section, or it has at least two and is no longer than
    [max_chunk_size], before and after [strip]. *)
Definition chunk_within_bound (max_chunk_size : Z) (g : list section) : Prop :=
  (exists s, g = [s]
     /\ ((len (chunk_of g) <= max_chunk_size)%Z
         \/ (max_chunk_size < len (section_text s))%Z))
  \/ ((2 <= length g)%nat
      /\ (len (chunk_of g) <= len (sections_text g) <= max_chunk_size)%Z).

(** The input of the chunk example, and a text with a line before its
    first heading. *)
Definition example_text : str :=
  of_string "# A
short
# B
" ++ repeat 120 800.

Definition text_with_preamble : str := of_string "intro
# A".

Definition text_without_heading : str := of_string "hello".

(* ================================================================== *)
(** * Exceptions, and the events a run leaves behind *)
(* ================================================================== *)

(** A raised exception (a subclass of [Exception]), by its name. *)
Definition exn := string.

(** A call returns a value or raises. *)
Inductive outcome (A : Type) : Type :=
| Returned (a : A)
| Raised (e : exn).
Arguments Returned {A} a.
Arguments Raised {A} e.

(** What the program logs, and its sleeps. *)
Inductive event : Type :=
| Warning_retrying (attempt_number : nat) (e : exn)
| Info_found_sections (n : nat)
| Debug_found_urls (count : nat)
| Info_found_total (n : nat)
| Info_got_chunks (n : nat) (url : str)
| Error_failed_url (url : str)
| Info_chunks_total (n : nat)
| Info_saved (filename : string)
| Sleep (seconds : nat).

(* ================================================================== *)
(** * The fetcher: [fetch_url] under [@retry] *)
(* ================================================================== *)

Record response : Type := { status_code : Z; text : str }.

(** [requests.get] returns a response, whatever its status, or raises
    (no connection, timeout). *)
Inductive get_result : Type :=
| Get_response (rep : response)
| Get_raises (e : exn).

(** The body of [fetch_url].  [rep.raise_for_status] looks the method up
    and does not call it, so nothing is raised for any status. *)
Definition fetch_url_body (got : get_result) : outcome str :=
  match got with
  | Get_response rep => Returned (text rep)
  | Get_raises e => Raised e
  end.

(** [@retry(stop=stop_after_attempt(3), wait=wait_fixed(3),
    before_sleep=retry_log_warning, reraise=True)]: the call is repeated
    while it raises; before a new attempt a warning is logged and three
    seconds pass; when the last attempt raises, its exception is raised.
    [attempts_left] counts the attempts allowed after this one, and
    [net n] is what the [n]-th request meets. *)
Fixpoint retrying (body : get_result -> outcome str) (net : nat -> get_result)
    (attempts_left attempt_number : nat) : outcome str * list event :=
  match body (net attempt_number) with
  | Returned v => (Returned v, [])
  | Raised e =>
      match attempts_left with
      | O => (Raised e, [])
      | S more =>
          let '(r, evs) := retrying body net more (S attempt_number) in
          (r, Warning_retrying attempt_number e :: Sleep 3 :: evs)
      end
  end.

Definition fetch_url (net : nat -> get_result) : outcome str * list event :=
  retrying fetch_url_body net 2 1.

(** Requests that fail twice and then meet a 503 page. *)
Definition page_503 : response :=
  {| status_code := 503; text := of_string "Service Unavailable" |}.

Definition net_two_failures (n : nat) : get_result :=
  match n with
  | 3%nat => Get_response page_503
  | _ => Get_raises "ConnectionError"%string
  end.

(* ================================================================== *)
(** * The URL discoverer: [get_help_docs_urls] *)
(* ================================================================== *)

(** The value of an entry's ["url"], a JSON null or a JSON string. *)
Inductive json_value : Type :=
| JNull
| JString (s : str).

(** An entry of the navigation tree; [None] when it has no ["url"] key. *)
Record nav_entry : Type := { url_field : option json_value }.

(** A section of the navigation tree. *)
Record nav_section : Type := { entries : list nav_entry }.

(** [i.get("url")]: Python's [None] for a missing key and for a null. *)
Definition get_url (i : nav_entry) : option str :=
  match url_field i with
  | None => None
  | Some JNull => None
  | Some (JString s) => Some s
  end.

(** [if url:], for [None] or a string. *)
Definition truthy (url : option str) : bool :=
  match url with
  | Some (_ :: _) => true
  | _ => false
  end.

(** The string that [f"{base_url}{url}"] makes of a string [url]. *)
Definition format_url (base_url : str) (url : option str) : str :=
  match url with
  | Some u => base_url ++ u
  | None => base_url ++ of_string "None"
  end.

(** The inner loop, over the entries of one section: [urls] and [count]. *)
Definition entry_step (base_url : str) (st : list str * nat) (i : nav_entry)
    : list str * nat :=
  let '(urls, count) := st in
  let url := get_url i in
  if truthy url then (urls ++ [format_url base_url url], (count + 1)%nat)
  else (urls, count).

(** [logger.setLevel(logging.INFO)] (line 14): a record of a lower level
    is dropped, and [logger.debug] leaves nothing in the log. *)
Definition below_info (ev : event) : bool :=
  match ev with
  | Debug_found_urls _ => true
  | _ => false
  end.

Definition logged (ev : event) : list event :=
  if below_info ev then [] else [ev].

(** The outer loop, over the sections: [urls] and the log. *)
Definition section_urls_step (base_url : str) (st : list str * list event)
    (l1 : nav_section) : list str * list event :=
  let '(urls, log) := st in
  let _l2_list := entries l1 in
  let '(urls, count) := fold_left (entry_step base_url) _l2_list (urls, 0%nat) in
  (urls, log ++ logged (Debug_found_urls count)).

(** [get_help_docs_urls] from the parsed [helpArticleTree] on. *)
Definition collect_urls (base_url : str) (_l1_list : list nav_section)
    : list str * list event :=
  let '(urls, log) :=
    fold_left (section_urls_step base_url) _l1_list
              ([], [Info_found_sections (length _l1_list)]) in
  (urls, log ++ [Info_found_total (length urls)]).

(** [f"{parsed_url.scheme}://{parsed_url.netloc}"] for
    ["https://www.notion.so/help/reference"]. *)
Definition notion_base_url : str := of_string "https://www.notion.so".


(** The absolute URL an entry stands for, if any. *)
Definition entry_link (base_url : str) (i : nav_entry) : list str :=
  match url_field i with
  | Some (JString (c :: u)) => [base_url ++ c :: u]
  | _ => []
  end.

Definition entry_of (s : string) : nav_entry :=
  {| url_field := Some (JString (of_string s)) |}.

Definition example_tree : list nav_section :=
  [ {| entries := [entry_of "/a"; {| url_field := Some JNull |}; entry_of "/b"] |};
    {| entries := [entry_of "/c"] |} ].

(* ================================================================== *)
(** * The content extractor: the post-processing of [processing_html] *)
(* ================================================================== *)

(** [content.splitlines()]: the text is cut at every line boundary, a
    ["\r\n"] counting as one; the boundaries are dropped, and no empty
    line is added after a final boundary.  [cur] is the line being read. *)
Fixpoint splitlines_from (cur s : str) : list str :=
  match s with
  | [] => match cur with [] => [] | _ :: _ => [cur] end
  | c :: r =>
      if is_linebreak c then
        cur :: match r with
               | c2 :: r2 =>
                   if (c =? CR) && (c2 =? NL) then splitlines_from [] r2
                   else splitlines_from [] r
               | [] => splitlines_from [] r
               end
      else splitlines_from (cur ++ [c]) r
  end.

Definition splitlines (s : str) : list str := splitlines_from [] s.

(** [re.sub(r'\n{2,}', '\n\n', content)]: a newline that stands alone is
    not matched and stays; a run of two or more is matched whole and
    replaced by two.  In both cases the first two newlines of a run are
    what is left of it.  [seen] counts the newlines of the current run
    that were already read. *)
Fixpoint sub_newlines (seen : nat) (s : str) : str :=
  match s with
  | [] => []
  | c :: r =>
      if is_nl c then
        match seen with
        | O | S O => c :: sub_newlines (S seen) r
        | _ => sub_newlines seen r
        end
      else c :: sub_newlines O r
  end.

(** Lines 50 to 54 of [processing_html], applied to the converted
    [content]. *)
Definition normalize_whitespace (content : str) : str :=
  let content := join_nl (map strip (splitlines content)) in
  let content := sub_newlines 0 content in
  content.

(** The text without its final newline, if it has one. *)
Fixpoint chomp (s : str) : str :=
  match s with
  | [] => []
  | [c] => if is_nl c then [] else [c]
  | c :: r => c :: chomp r
  end.

(** The lines without the last one, if that one is empty. *)
Fixpoint drop_last_empty (L : list str) : list str :=
  match L with
  | [] => []
  | [l] => match l with [] => [] | _ :: _ => [l] end
  | l :: rest => l :: drop_last_empty rest
  end.

Definition lbfree (l : str) : Prop := Forall (fun c => is_linebreak c = false) l.

(** A line as the post-processing leaves it. *)
Definition clean (l : str) : Prop := lbfree l /\ strip l = l.

Definition text_with_blank_end : str := of_string "a

".

(* ================================================================== *)
(** * The sink: [save_list_to_file] *)
(* ================================================================== *)

Definition QUOTE : char := 39.       (* the single quote *)
Definition DQUOTE : char := 34.      (* the double quote *)
Definition BACKSLASH : char := 92.
Definition COMMA : char := 44.
Definition LBRACKET : char := 91.
Definition RBRACKET : char := 93.

(** A code point of Unicode. *)
Definition code_point (c : char) : Prop := c <= 0x10FFFF.

(** The digit of [d < 16] in ["0123456789abcdef"]. *)
Definition hex_digit (d : N) : char := if d <? 10 then 48 + d else 87 + d.

(** The last [n] hexadecimal digits of [v], the most significant first. *)
Fixpoint hex_digits (n : nat) (v : N) : str :=
  match n with
  | O => []
  | S k => hex_digit ((v / 16 ^ N.of_nat k) mod 16) :: hex_digits k v
  end.

Definition contains (c : char) (s : str) : bool := existsb (N.eqb c) s.

Section Sink.

(** [str.isprintable] on one character, a table of the Unicode database;
    [repr] consults it for the characters beyond ASCII only. *)
Variable isprintable : char -> bool.

(** The quote [repr] puts around a string: a double quote when the string
    has single quotes and no double quote, a single quote otherwise. *)
Definition repr_quote (s : str) : char :=
  if contains QUOTE s && negb (contains DQUOTE s) then DQUOTE else QUOTE.

(** What [repr] writes for one character inside the quotes. *)
Definition repr_char (quote c : char) : str :=
  if (c =? quote) || (c =? BACKSLASH) then [BACKSLASH; c]
  else if c =? TAB then BACKSLASH :: of_string "t"
  else if c =? NL then BACKSLASH :: of_string "n"
  else if c =? CR then BACKSLASH :: of_string "r"
  else if (c <? 0x20) || (c =? 0x7F) then BACKSLASH :: of_string "x" ++ hex_digits 2 c
  else if c <? 0x7F then [c]
  else if isprintable c then [c]
  else if c <=? 0xFF then BACKSLASH :: of_string "x" ++ hex_digits 2 c
  else if c <=? 0xFFFF then BACKSLASH :: of_string "u" ++ hex_digits 4 c
  else BACKSLASH :: of_string "U" ++ hex_digits 8 c.

(** [repr(item)] for a string. *)
Definition repr (item : str) : str :=
  let quote := repr_quote item in
  quote :: flat_map (repr_char quote) item ++ [quote].

(** [open(filename, "w")] (line 133) names no encoding, so that the text
    is encoded with the encoding of the locale; [encodable] tells the
    characters that this encoding can hold. *)
Variable encodable : char -> bool.

(** The file while it is open: the text written so far, and the exception
    raised by a write, after which the function writes nothing more. *)
Record open_file : Type := { written : str; raised : option exn }.

(** [file.write(s)]: [s] is added to the file; when a character of [s]
    cannot be encoded, [UnicodeEncodeError] is raised and nothing of [s]
    is added. *)
Definition file_write (file : open_file) (s : str) : open_file :=
  match raised file with
  | Some _ => file
  | None =>
      if forallb encodable s
      then {| written := written file ++ s; raised := None |}
      else {| written := written file;
              raised := Some "UnicodeEncodeError"%string |}
  end.

(** [save_list_to_file]: the file it leaves, one [file.write] after the
    other, and the exception it raises, if any. *)
Definition save_list_to_file (data_list : list str) : open_file :=
  let file := {| written := []; raised := None |} in
  let file := file_write file [LBRACKET; NL] in
  let file :=
    fold_left (fun file item =>
                 file_write file (of_string "    " ++ repr item ++ [COMMA; NL]))
              data_list file in
  let file := file_write file [RBRACKET; NL] in
  file.

End Sink.

(** The encoding can hold ASCII, and every character of the items that
    [repr] writes as it is, which are the printable ones. *)
Definition encoding_fits (isprintable encodable : char -> bool)
    (data_list : list str) : Prop :=
  (forall c, c < 0x80 -> encodable c = true)
  /\ Forall (Forall (fun c => isprintable c = true -> encodable c = true))
            data_list.

(** Three encodings: ASCII; ISO-8859-1, that of a locale such as
    [en_US.ISO-8859-1]; UTF-8, which holds every code point but the
    surrogates. *)
Definition ascii_encoding (c : char) : bool := c <? 0x80.


Definition utf8_encoding (c : char) : bool :=
  (c <=? 0x10FFFF) && negb ((0xD800 <=? c) && (c <=? 0xDFFF)).


(** ** Reading the file back

    The syntax of Python for a list display of plain string literals,
    which is what [ast.literal_eval] (or [eval]) reads the file with.
    The reader goes through the text character by character; what Python
    accepts beyond the cases below (string prefixes, triple quotes,
    adjacent literals, further escapes, comments) is refused here. *)

Inductive reader_state : Type :=
| At_start                                  (* before the opening bracket *)
| Before_item                               (* after the bracket or a comma *)
| In_text (quote : char)                    (* inside a string literal *)
| After_backslash (quote : char)
| In_hex (quote : char) (remaining : nat) (value : N)
| After_item                                (* after a closing quote *)
| At_end.                                   (* after the closing bracket *)

(** Blanks between the tokens inside the brackets, and at the end. *)
Definition is_blank (c : char) : bool := (c =? SPACE) || (c =? TAB) || (c =? NL).

Definition hex_value (c : char) : option N :=
  if (48 <=? c) && (c <=? 57) then Some (c - 48)
  else if (97 <=? c) && (c <=? 102) then Some (c - 87)
  else if (65 <=? c) && (c <=? 70) then Some (c - 55)
  else None.

Fixpoint read_literal (st : reader_state) (items : list str) (acc : str)
    (s : str) : option (list str) :=
  match s with
  | [] => match st with At_end => Some items | _ => None end
  | c :: r =>
      match st with
      | At_start =>
          if c =? LBRACKET then read_literal Before_item items [] r else None
      | Before_item =>
          if is_blank c then read_literal Before_item items [] r
          else if c =? RBRACKET then read_literal At_end items [] r
          else if (c =? QUOTE) || (c =? DQUOTE) then
            match r with
            | c1 :: c2 :: _ =>
                if (c1 =? c) && (c2 =? c) then None
                else read_literal (In_text c) items [] r
            | _ => read_literal (In_text c) items [] r
            end
          else None
      | In_text quote =>
          if c =? quote then read_literal After_item (items ++ [acc]) [] r
          else if c =? BACKSLASH then read_literal (After_backslash quote) items acc r
          else if (c =? NL) || (c =? CR) then None
          else read_literal (In_text quote) items (acc ++ [c]) r
      | After_backslash quote =>
          if (c =? BACKSLASH) || (c =? QUOTE) || (c =? DQUOTE)
          then read_literal (In_text quote) items (acc ++ [c]) r
          else if c =? 110 then read_literal (In_text quote) items (acc ++ [NL]) r
          else if c =? 114 then read_literal (In_text quote) items (acc ++ [CR]) r
          else if c =? 116 then read_literal (In_text quote) items (acc ++ [TAB]) r
          else if c =? 120 then read_literal (In_hex quote 2 0) items acc r
          else if c =? 117 then read_literal (In_hex quote 4 0) items acc r
          else if c =? 85 then read_literal (In_hex quote 8 0) items acc r
          else None
      | In_hex quote remaining value =>
          match hex_value c, remaining with
          | Some d, S O =>
              if 16 * value + d <=? 0x10FFFF
              then read_literal (In_text quote) items (acc ++ [16 * value + d]) r
              else None
          | Some d, S k => read_literal (In_hex quote k (16 * value + d)) items acc r
          | _, _ => None
          end
      | After_item =>
          if is_blank c then read_literal After_item items [] r
          else if c =? COMMA then read_literal Before_item items [] r
          else if c =? RBRACKET then read_literal At_end items [] r
          else None
      | At_end =>
          if is_blank c then read_literal At_end items [] r else None
      end
  end.

Definition parse_list_literal (file : str) : option (list str) :=
  read_literal At_start [] [] file.


(** One of the two quotes of a string literal. *)
Definition is_quote (q : char) : Prop := q = QUOTE \/ q = DQUOTE.

(* ================================================================== *)
(** * The pipeline driver: [scrapping_notion] *)
(* ================================================================== *)

Section Pipeline.

Variable isprintable : char -> bool.

(** The characters that the encoding of the locale can hold. *)
Variable encodable : char -> bool.

(** What the [n]-th request for a URL meets. *)
Variable web : str -> nat -> get_result.

(** Lines 37 to 48 of [processing_html]: the article found by
    BeautifulSoup and converted by markdownify, or the exception raised
    on the way. *)
Variable convert_article : str -> outcome str.

Definition processing_html (html : str) : outcome str :=
  match convert_article html with
  | Returned content => Returned (normalize_whitespace content)
  | Raised e => Raised e
  end.

Definition read_url (url : str) : outcome str * list event :=
  let '(fetched, evs) := fetch_url (web url) in
  match fetched with
  | Returned html => (processing_html html, evs)
  | Raised e => (Raised e, evs)
  end.

(** One iteration of [for url in urls], on [chunks] and the log. *)
Definition process_url (st : list str * list event) (url : str)
    : list str * list event :=
  let '(chunks, log) := st in
  let '(read, evs) := read_url url in
  let '(chunks, log) :=
    match read with
    | Returned content =>
        let _chunks := split_markdown content default_max_chunk_size in
        (chunks ++ _chunks, log ++ evs ++ [Info_got_chunks (length _chunks) url])
    | Raised e => (chunks, log ++ evs ++ [Error_failed_url url])
    end in
  (chunks, log ++ [Sleep 1]).

(** What a run leaves: the chunks, the log, [results.txt] if it was
    opened, and the exception that ended the run, if any. *)
Record run : Type :=
  { run_chunks : list str;
    run_log : list event;
    results_txt : option open_file;
    run_raised : option exn }.

(** [scrapping_notion].  [discovered] is what the call of
    [get_help_docs_urls()] at line 144 did: its result or the exception
    it raised, which is not caught, and the events it left.  An exception
    of [save_list_to_file] is not caught either; [Chunks saved] is logged
    when there was none. *)
Definition scrapping_notion (discovered : outcome (list str) * list event)
    : run :=
  let '(urls, log) := discovered in
  match urls with
  | Raised e =>
      {| run_chunks := []; run_log := log;
         results_txt := None; run_raised := Some e |}
  | Returned urls =>
      let '(chunks, log) := fold_left process_url urls ([], log) in
      let log := log ++ [Info_chunks_total (length chunks)] in
      let file := save_list_to_file isprintable encodable chunks in
      {| run_chunks := chunks;
         run_log := match raised file with
                    | None => log ++ [Info_saved "results.txt"%string]
                    | Some _ => log
                    end;
         results_txt := Some file;
         run_raised := raised file |}
  end.

(** The chunks a document contributes, and whether it failed. *)
Definition chunks_of_url (url : str) : list str :=
  match fst (read_url url) with
  | Returned content => split_markdown content default_max_chunk_size
  | Raised _ => []
  end.

Definition url_fails (url : str) : bool :=
  match fst (read_url url) with
  | Returned _ => false
  | Raised _ => true
  end.

End Pipeline.

Definition is_failure (ev : event) : bool :=
  match ev with
  | Error_failed_url _ => true
  | _ => false
  end.

(** Three documents, of which the second has no article. *)
Definition three_urls : list str :=
  [of_string "/doc1"; of_string "/doc2"; of_string "/doc3"].

Definition web_ok (url : str) (n : nat) : get_result :=
  Get_response {| status_code := 200; text := url |}.

Definition convert_but_doc2 (html : str) : outcome str :=
  if list_eq_dec N.eq_dec html (of_string "/doc2")
  then Raised "AttributeError"%string
  else Returned (of_string "# " ++ html).

(* ================================================================== *)
(** * [@retry] around any call, and [get_help_docs_urls] as a whole *)
(* ================================================================== *)

(** [@retry(stop=stop_after_attempt(3), wait=wait_fixed(3),
    before_sleep=retry_log_warning, reraise=True)] around a call whose
    [n]-th attempt returns or raises after leaving its own events. *)
Fixpoint retry_call {A : Type} (call : nat -> outcome A * list event)
    (attempts_left attempt_number : nat) : outcome A * list event :=
  match call attempt_number with
  | (Returned v, evs) => (Returned v, evs)
  | (Raised e, evs) =>
      match attempts_left with
      | O => (Raised e, evs)
      | S more =>
          let '(r, evs') := retry_call call more (S attempt_number) in
          (r, evs ++ Warning_retrying attempt_number e :: Sleep 3 :: evs')
      end
  end.

(** ** The data of the help page

    What [json.loads] returns: [None], a boolean, a number, a string, a
    list or a dictionary.  Of a number only what the program can see of
    it is kept: what [str()] makes of it and whether it is zero. *)
#[warnings="-register-all"]
Inductive json : Type :=
| J_null
| J_bool (b : bool)
| J_number (text : str) (nonzero : bool)
| J_string (s : str)
| J_array (items : list json)
| J_object (members : list (str * json)).

Fixpoint str_eqb (a b : str) : bool :=
  match a, b with
  | [], [] => true
  | x :: a', y :: b' => (x =? y) && str_eqb a' b'
  | _, _ => false
  end.

(** The value of a key in the members of an object as [json.loads] reads
    them: the last one, when the key is there more than once. *)
Fixpoint dict_lookup (key : str) (members : list (str * json)) : option json :=
  match members with
  | [] => None
  | (k, v) :: rest =>
      match dict_lookup key rest with
      | Some v' => Some v'
      | None => if str_eqb k key then Some v else None
      end
  end.

(** The keys of a dictionary, each once, in the order in which they came
    first. *)
Fixpoint dict_keys (seen : list str) (members : list (str * json)) : list str :=
  match members with
  | [] => []
  | (k, _) :: rest =>
      if existsb (str_eqb k) seen then dict_keys seen rest
      else k :: dict_keys (k :: seen) rest
  end.

(** [v.get(key)]: the value or [None] for a dictionary; other values have
    no [get]. *)
Definition py_get (v : json) (key : string) : outcome json :=
  match v with
  | J_object members =>
      match dict_lookup (of_string key) members with
      | Some x => Returned x
      | None => Returned J_null
      end
  | _ => Raised "AttributeError"%string
  end.

(** [len(v)] *)
Definition py_len (v : json) : outcome nat :=
  match v with
  | J_array items => Returned (length items)
  | J_string s => Returned (length s)
  | J_object members => Returned (length (dict_keys [] members))
  | _ => Raised "TypeError"%string
  end.

(** What [for x in v] goes through: the items of a list, the characters
    of a string, the keys of a dictionary. *)
Definition py_iter (v : json) : outcome (list json) :=
  match v with
  | J_array items => Returned items
  | J_string s => Returned (map (fun c => J_string [c]) s)
  | J_object members => Returned (map J_string (dict_keys [] members))
  | _ => Raised "TypeError"%string
  end.

(** [if v:] *)
Definition py_truthy (v : json) : bool :=
  match v with
  | J_null => false
  | J_bool b => b
  | J_number _ nonzero => nonzero
  | J_string s => match s with [] => false | _ :: _ => true end
  | J_array items => match items with [] => false | _ :: _ => true end
  | J_object members => match members with [] => false | _ :: _ => true end
  end.

Section Discovery.

(** What the [k]-th request of the [n]-th attempt of
    [get_help_docs_urls] meets when it asks for the help page. *)
Variable index_web : nat -> nat -> get_result.

(** Lines 75 to 79 of [get_help_docs_urls]: the [__NEXT_DATA__] script
    found by BeautifulSoup and read by [json.loads], or the exception
    raised on the way. *)
Variable load_next_data : str -> outcome json.

(** What [str()] makes of a list or of a dictionary. *)
Variable str_of_value : json -> str.

(** [f"{base_url}{url}"] *)
Definition format_link (base_url : str) (url : json) : str :=
  match url with
  | J_string s => base_url ++ s
  | J_number text _ => base_url ++ text
  | J_bool true => base_url ++ of_string "True"
  | J_bool false => base_url ++ of_string "False"
  | J_null => base_url ++ of_string "None"
  | _ => base_url ++ str_of_value url
  end.

(** Lines 89 to 93: the loop over the entries of a section. *)
Fixpoint entries_loop (base_url : str) (_l2_list : list json)
    (urls : list str) (count : nat) : outcome (list str * nat) :=
  match _l2_list with
  | [] => Returned (urls, count)
  | i :: rest =>
      match py_get i "url" with
      | Raised e => Raised e
      | Returned url =>
          if py_truthy url
          then entries_loop base_url rest
                 (urls ++ [format_link base_url url]) (count + 1)
          else entries_loop base_url rest urls count
      end
  end.

(** Lines 86 to 94: the loop over the sections.  What [logger.debug]
    records is dropped. *)
Fixpoint sections_loop (base_url : str) (_l1_list : list json)
    (urls : list str) : outcome (list str) :=
  match _l1_list with
  | [] => Returned urls
  | l1 :: rest =>
      match py_get l1 "entries" with
      | Raised e => Raised e
      | Returned _l2_list =>
          match py_iter _l2_list with
          | Raised e => Raised e
          | Returned entries =>
              match entries_loop base_url entries urls 0 with
              | Raised e => Raised e
              | Returned (urls, count) => sections_loop base_url rest urls
              end
          end
      end
  end.

(** Lines 81 to 97, from the data read by [json.loads] on: the result or
    the exception, and the log. *)
Definition urls_of_json_data (base_url : str) (json_data : json)
    : outcome (list str) * list event :=
  match py_get json_data "props" with
  | Raised e => (Raised e, [])
  | Returned props =>
  match py_get props "pageProps" with
  | Raised e => (Raised e, [])
  | Returned page_props =>
  match py_get page_props "helpArticleTree" with
  | Raised e => (Raised e, [])
  | Returned _l1_list =>
  match py_len _l1_list with
  | Raised e => (Raised e, [])
  | Returned n =>
      let log := [Info_found_sections n] in
      match py_iter _l1_list with
      | Raised e => (Raised e, log)
      | Returned sections =>
          match sections_loop base_url sections [] with
          | Raised e => (Raised e, log)
          | Returned urls =>
              (Returned urls, log ++ [Info_found_total (length urls)])
          end
      end
  end end end end.

(** The body of [get_help_docs_urls], at its [n]-th attempt. *)
Definition get_help_docs_urls_body (n : nat) : outcome (list str) * list event :=
  let '(fetched, evs) := fetch_url (index_web n) in
  match fetched with
  | Raised e => (Raised e, evs)
  | Returned html =>
      match load_next_data html with
      | Raised e => (Raised e, evs)
      | Returned json_data =>
          let '(r, log) := urls_of_json_data notion_base_url json_data in
          (r, evs ++ log)
      end
  end.

(** [get_help_docs_urls()] under its own [@retry]. *)
Definition get_help_docs_urls_retried : outcome (list str) * list event :=
  retry_call get_help_docs_urls_body 2 1.

End Discovery.

(** A run of the program: [scrapping_notion()] (line 160), with the URLs
    and the events of its own call of [get_help_docs_urls()]. *)
Definition scrapping_notion_run (isprintable encodable : char -> bool)
    (index_web : nat -> nat -> get_result)
    (load_next_data : str -> outcome json) (str_of_value : json -> str)
    (web : str -> nat -> get_result) (convert_article : str -> outcome str)
    : run :=
  scrapping_notion isprintable encodable web convert_article
    (get_help_docs_urls_retried index_web load_next_data str_of_value).

(** The data of a page whose tree is as expected: sections with entries,
    each with a string, a null or no ["url"]. *)
Definition json_of_entry (i : nav_entry) : json :=
  match url_field i with
  | None => J_object []
  | Some JNull => J_object [(of_string "url", J_null)]
  | Some (JString s) => J_object [(of_string "url", J_string s)]
  end.

Definition json_of_section (l1 : nav_section) : json :=
  J_object [(of_string "entries", J_array (map json_of_entry (entries l1)))].

Definition page_data (help_article_tree : json) : json :=
  J_object [(of_string "props",
     J_object [(of_string "pageProps",
        J_object [(of_string "helpArticleTree", help_article_tree)])])].


(** A section that has a title and no entries. *)
Definition section_without_entries : json :=
  J_object [(of_string "title", J_string (of_string "Guides"))].

(** The seconds slept in a run. *)
Fixpoint seconds_slept (evs : list event) : nat :=
  match evs with
  | [] => 0
  | Sleep n :: r => n + seconds_slept r
  | _ :: r => seconds_slept r
  end.

Definition net_always_down (n : nat) : get_result :=
  Get_raises "ConnectionError"%string.

(** The number of newlines a text begins with. *)
Fixpoint leading_newlines (s : str) : nat :=
  match s with
  | c :: r => if is_nl c then S (leading_newlines r) else 0
  | [] => 0
  end.

(** The characters of a text that are not whitespace, in order. *)
Definition visible (s : str) : str := filter (fun c => negb (is_space c)) s.

(** No line boundary but the newline. *)
Definition only_newline_breaks (s : str) : Prop :=
  Forall (fun c => is_linebreak c = true -> c = NL) s.

Definition blank_text : str := [SPACE; SPACE; NL; TAB; CR; NL; 160; NL; NL; SPACE].

Definition tidy_text : str := of_string "# Title

Some text
- item".

(** Between two consecutive groups, the loop closed the first because the
    first section of the second did not fit in any more. *)
Fixpoint closed_when_full (max_chunk_size : Z) (groups : list (list section))
    : Prop :=
  match groups with
  | g1 :: ((g2 :: _) as rest) =>
      match g2 with
      | s :: _ =>
          (len (sections_text g1) + len (section_text s) > max_chunk_size)%Z
      | [] => False
      end
      /\ closed_when_full max_chunk_size rest
  | _ => True
  end.

(** A contiguous slice of a text. *)
Definition slice_of (text chunk : str) : Prop :=
  exists before after, text = before ++ chunk ++ after.

Definition three_sections_text : str := of_string "# A
one
## B
two
# C
three".

(** An ASCII control character. *)
Definition is_control (c : char) : bool := (c <? 0x20) || (c =? 0x7F).

(** A printable ASCII character other than the single quote and the
    backslash. *)
Definition is_plain (c : char) : bool :=
  (0x20 <=? c) && (c <? 0x7F) && negb (c =? QUOTE) && negb (c =? BACKSLASH).

Section Pipeline_log.

Variable web : str -> nat -> get_result.
Variable convert_article : str -> outcome str.

(** What the loop of [scrapping_notion] logs for one URL once it was
    read: the number of its chunks, or its failure. *)
Definition outcome_event (url : str) : event :=
  if url_fails web convert_article url then Error_failed_url url
  else Info_got_chunks (length (chunks_of_url web convert_article url)) url.

(** The events of one turn of the loop. *)
Definition url_events (url : str) : list event :=
  snd (read_url web convert_article url) ++ [outcome_event url; Sleep 1].

End Pipeline_log.

Definition plain_item : str :=
  of_string "## Title: a " ++ DQUOTE :: of_string "b" ++ DQUOTE :: of_string " (c)".

Definition GT : char := 62.        (* the closing angle bracket *)
Definition LT : char := 60.        (* the opening angle bracket *)

(** Line 37 of [processing_html],
    [re.sub(r'(>)(<)', r'\1\n\2', html)]: a newline is put between a
    [>] and a [<] that follows it at once; the search goes on after the
    [<]. *)
Fixpoint separate_tags (html : str) : str :=
  match html with
  | [] => []
  | c :: r =>
      match r with
      | c2 :: r2 =>
          if (c =? GT) && (c2 =? LT) then GT :: NL :: LT :: separate_tags r2
          else c :: separate_tags r
      | [] => [c]
      end
  end.

(** A [>] with a [<] right after it. *)
Fixpoint has_adjacent_tags (s : str) : bool :=
  match s with
  | c :: ((c2 :: _) as r) => ((c =? GT) && (c2 =? LT)) || has_adjacent_tags r
  | _ => false
  end.

(** The text without its newlines. *)
Definition without_newlines (s : str) : str := filter (fun c => negb (is_nl c)) s.

(* ================================================================== *)
(** * Proofs: strings *)
(* ================================================================== *)

Lemma span_app p s : fst (span p s) ++ snd (span p s) = s.
Proof.
  induction s as [|c r IH]; simpl; [reflexivity|].
  destruct (p c); simpl; [|reflexivity].
  destruct (span p r) as [a b]; simpl in *. now rewrite IH.
Qed.

Lemma span_all p s : Forall (fun c => p c = true) (fst (span p s)).
Proof.
  induction s as [|c r IH]; simpl; [constructor|].
  destruct (p c) eqn:E; simpl; [|constructor].
  destruct (span p r) as [a b]; simpl in *. now constructor.
Qed.

Lemma length_snd_span p s : (length (snd (span p s)) <= length s)%nat.
Proof.
  rewrite <- (span_app p s) at 2. rewrite length_app. lia.
Qed.

Lemma is_space_hash : is_space HASH = false.
Proof. reflexivity. Qed.

Lemma is_hash_eq c : is_hash c = true -> c = HASH.
Proof. unfold is_hash. now rewrite N.eqb_eq. Qed.

Lemma is_nl_eq c : is_nl c = true -> c = NL.
Proof. unfold is_nl. now rewrite N.eqb_eq. Qed.

Lemma lstrip_not_space c r : is_space c = false -> lstrip (c :: r) = c :: r.
Proof. unfold lstrip; simpl; now intros ->. Qed.

Lemma dropwhile_suffix p s : exists a, s = a ++ dropwhile p s.
Proof.
  induction s as [|c r [a IH]]; simpl.
  - now exists [].
  - destruct (p c).
    + exists (c :: a). simpl. now f_equal.
    + now exists [].
Qed.

Lemma length_dropwhile p s : (length (dropwhile p s) <= length s)%nat.
Proof.
  destruct (dropwhile_suffix p s) as [a E]. rewrite E at 2.
  rewrite length_app. lia.
Qed.

Lemma dropwhile_app_keep p a c b :
  p c = false -> dropwhile p (a ++ c :: b) = dropwhile p a ++ c :: b.
Proof.
  intros Hc. induction a as [|x a IH]; simpl.
  - now rewrite Hc.
  - destruct (p x); [exact IH|reflexivity].
Qed.

(** Trailing whitespace is removed from a text that starts with a
    character that is not whitespace without touching that character. *)
Lemma rstrip_cons c r :
  is_space c = false -> exists r', rstrip (c :: r) = c :: r'.
Proof.
  intros Hc. unfold rstrip. simpl rev.
  rewrite (dropwhile_app_keep is_space (rev r) c [] Hc).
  rewrite rev_app_distr. simpl. now eexists.
Qed.

Lemma strip_cons c r :
  is_space c = false -> exists r', strip (c :: r) = c :: r'.
Proof.
  intros Hc. unfold strip. rewrite (lstrip_not_space _ _ Hc).
  now apply rstrip_cons.
Qed.

Lemma length_strip s : (length (strip s) <= length s)%nat.
Proof.
  unfold strip, rstrip, lstrip. rewrite length_rev.
  etransitivity; [apply length_dropwhile|]. rewrite length_rev.
  apply length_dropwhile.
Qed.

Lemma len_strip s : (len (strip s) <= len s)%Z.
Proof. unfold len. pose proof (length_strip s). lia. Qed.

(* ================================================================== *)
(** * Proofs: the search for heading lines *)
(* ================================================================== *)

Lemma match_heading_some s h rest :
  match_heading s = Some (h, rest) ->
  s = h ++ rest /\ (length rest < length s)%nat /\ starts_with_hash h.
Proof.
  unfold match_heading.
  pose proof (span_app is_hash s) as Happ.
  pose proof (span_all is_hash s) as Hall.
  destruct (span is_hash s) as [hashes r1]; simpl in *.
  destruct hashes as [|x hs]; [discriminate|].
  destruct r1 as [|c r2]; [discriminate|].
  destruct (is_space c); [|discriminate].
  pose proof (span_app (fun x => negb (is_nl x)) r2) as Happ2.
  destruct (span (fun x => negb (is_nl x)) r2) as [line r3]; simpl in *.
  intros [= <- <-].
  inversion Hall as [|? ? Hx _]; subst. apply is_hash_eq in Hx. subst x.
  repeat split.
  - simpl. rewrite <- app_assoc. reflexivity.
  - simpl. rewrite !length_app. simpl. rewrite length_app. lia.
  - eexists. reflexivity.
Qed.

Lemma match_heading_split s h rest :
  match_heading s = Some (h, rest) -> s = h ++ rest.
Proof. intros H. now apply match_heading_some in H. Qed.

Lemma match_heading_shorter s h rest :
  match_heading s = Some (h, rest) -> (length rest < length s)%nat.
Proof. intros H. now apply match_heading_some in H. Qed.

Lemma match_heading_hash s h rest :
  match_heading s = Some (h, rest) -> starts_with_hash h.
Proof. intros H. now apply match_heading_some in H. Qed.

Lemma match_heading_nil : match_heading [] = None.
Proof. reflexivity. Qed.

(** [re_split_from] and [scan] make the same search. *)
Lemma re_split_from_scan fuel : forall bol gap s,
  re_split_from fuel bol gap s
  = fst (scan fuel bol gap s) :: interleave (snd (scan fuel bol gap s)).
Proof.
  induction fuel as [|f IH]; intros bol gap s; simpl; [reflexivity|].
  destruct (if bol then match_heading s else None) as [[h rest]|].
  - rewrite IH. destruct (scan f (is_nl (last h 0)) [] rest); reflexivity.
  - destruct s as [|c r]; [reflexivity|]. apply IH.
Qed.

(** The fuel given to the search is never used up. *)
Lemma scan_fuel f1 : forall f2 bol gap s,
  (length s <= f1)%nat -> (length s <= f2)%nat ->
  scan f1 bol gap s = scan f2 bol gap s.
Proof.
  induction f1 as [|f1 IH]; intros f2 bol gap s H1 H2.
  - destruct s; [|simpl in H1; lia].
    destruct f2; simpl; [reflexivity|].
    rewrite match_heading_nil, app_nil_r. now destruct bol.
  - destruct f2 as [|f2].
    + destruct s; [|simpl in H2; lia]. simpl.
      rewrite match_heading_nil, app_nil_r. now destruct bol.
    + simpl.
      destruct (if bol then match_heading s else None) as [[h rest]|] eqn:E.
      * assert (Hm : match_heading s = Some (h, rest))
          by (destruct bol; [exact E|discriminate]).
        apply match_heading_shorter in Hm.
        rewrite (IH f2); [reflexivity|lia|lia].
      * destruct s as [|c r]; [reflexivity|]. simpl in H1, H2.
        apply IH; lia.
Qed.

(** The text passed over before the search started is carried along
    unchanged. *)
Lemma scan_gap fuel : forall bol gap s,
  scan fuel bol gap s
  = (gap ++ fst (scan fuel bol [] s), snd (scan fuel bol [] s)).
Proof.
  induction fuel as [|f IH]; intros bol gap s; simpl; [reflexivity|].
  destruct (if bol then match_heading s else None) as [[h rest]|].
  - destruct (scan f (is_nl (last h 0)) [] rest). simpl. now rewrite app_nil_r.
  - destruct s as [|c r]; simpl; [now rewrite app_nil_r|].
    rewrite (IH _ (gap ++ [c])), (IH _ [c]). simpl.
    now rewrite <- app_assoc.
Qed.

(** The search loses nothing: the text is the part before the first
    heading followed by the heading-sections, and every heading starts
    with ["#"]. *)
Lemma scan_text fuel : forall bol gap s,
  (length s <= fuel)%nat ->
  gap ++ s = fst (scan fuel bol gap s) ++ sections_text (snd (scan fuel bol gap s))
  /\ Forall (fun p => starts_with_hash (fst p)) (snd (scan fuel bol gap s)).
Proof.
  induction fuel as [|f IH]; intros bol gap s Hlen; simpl.
  - unfold sections_text. simpl. rewrite app_nil_r. split; [reflexivity|constructor].
  - destruct (if bol then match_heading s else None) as [[h rest]|] eqn:E.
    + assert (Hm : match_heading s = Some (h, rest))
        by (destruct bol; [exact E|discriminate]).
      pose proof (match_heading_shorter _ _ _ Hm) as Hs.
      destruct (IH (is_nl (last h 0)) [] rest ltac:(lia)) as [Ht Hh].
      destruct (scan f (is_nl (last h 0)) [] rest) as [body more]; simpl in *.
      split.
      * rewrite (match_heading_split _ _ _ Hm). unfold sections_text in *. simpl.
        unfold section_text at 1. simpl. rewrite Ht, <- !app_assoc. reflexivity.
      * constructor; [|exact Hh]. simpl. eapply match_heading_hash; eauto.
    + destruct s as [|c r].
      * unfold sections_text. simpl. split; [reflexivity|constructor].
      * simpl in Hlen. destruct (IH (is_nl c) (gap ++ [c]) r ltac:(lia)) as [Ht Hh].
        split; [|exact Hh]. rewrite <- Ht, <- app_assoc. reflexivity.
Qed.

Lemma re_split_headings_sections text :
  re_split_headings text = preamble text :: interleave (heading_sections text).
Proof. apply re_split_from_scan. Qed.

Lemma text_decomposition text :
  text = preamble text ++ sections_text (heading_sections text).
Proof.
  unfold preamble, heading_sections.
  destruct (scan_text (S (length text)) true [] text ltac:(lia)) as [H _].
  exact H.
Qed.

Lemma heading_sections_hash text :
  Forall (fun p => starts_with_hash (fst p)) (heading_sections text).
Proof.
  unfold heading_sections.
  now destruct (scan_text (S (length text)) true [] text ltac:(lia)) as [_ H].
Qed.

(* ================================================================== *)
(** * Proofs: the loop of the chunker *)
(* ================================================================== *)

Lemma length_interleave secs : length (interleave secs) = (2 * length secs)%nat.
Proof.
  induction secs as [|[h b] r IH]; simpl; [reflexivity|]. rewrite IH. lia.
Qed.

Lemma range_headlines pre secs :
  range 1 (length (pre :: interleave secs)) 2 = range_from (length secs) 1 2.
Proof.
  unfold range. simpl length. rewrite length_interleave. f_equal.
  replace (S (2 * length secs) - 1 + (2 - 1))%nat
    with (1 + length secs * 2)%nat by lia.
  rewrite Nat.div_add by lia. reflexivity.
Qed.

(** Walking the odd indices of [headlines] is walking the
    heading-sections. *)
Lemma split_loop_sections m secs : forall prefix st,
  fold_left (split_step (prefix ++ interleave secs) m)
            (range_from (length secs) (length prefix) 2) st
  = fold_left (section_step m) secs st.
Proof.
  induction secs as [|[h b] r IH]; intros prefix st; [reflexivity|].
  simpl interleave. simpl length. simpl range_from. simpl fold_left.
  assert (Hstep : split_step (prefix ++ h :: b :: interleave r) m st (length prefix)
                  = section_step m st (h, b)).
  { unfold split_step, section_step. destruct st as [sections cur]. simpl fst; simpl snd.
    rewrite nth_middle.
    replace (prefix ++ h :: b :: interleave r)
      with ((prefix ++ [h]) ++ b :: interleave r) by now rewrite <- app_assoc.
    replace (length prefix + 1)%nat with (length (prefix ++ [h]))
      by (rewrite length_app; reflexivity).
    rewrite nth_middle.
    assert (Hlt : (length (prefix ++ [h])
                   <? length ((prefix ++ [h]) ++ b :: interleave r))%nat = true).
    { apply Nat.ltb_lt. rewrite (length_app (prefix ++ [h])). simpl. lia. }
    rewrite Hlt. reflexivity. }
  rewrite Hstep.
  replace (prefix ++ h :: b :: interleave r)
    with ((prefix ++ [h; b]) ++ interleave r) by now rewrite <- app_assoc.
  replace (length prefix + 2)%nat with (length (prefix ++ [h; b]))
    by (rewrite length_app; reflexivity).
  apply IH.
Qed.

Lemma split_markdown_sections text m :
  split_markdown text m
  = finish (fold_left (section_step m) (heading_sections text) ([], [])).
Proof.
  unfold split_markdown. rewrite re_split_headings_sections, range_headlines.
  rewrite (split_loop_sections m (heading_sections text) [preamble text]).
  destruct (fold_left _ _ _) as [sections cur]. reflexivity.
Qed.

Lemma sections_text_app g1 g2 :
  sections_text (g1 ++ g2) = sections_text g1 ++ sections_text g2.
Proof. unfold sections_text. now rewrite map_app, concat_app. Qed.

Lemma sections_text_concat groups :
  sections_text (concat groups) = concat (map sections_text groups).
Proof.
  induction groups as [|g gs IH]; [reflexivity|].
  simpl. now rewrite sections_text_app, IH.
Qed.

Lemma sections_text_hash g :
  g <> [] -> Forall (fun p => starts_with_hash (fst p)) g ->
  starts_with_hash (sections_text g).
Proof.
  destruct g as [|[h b] r]; [congruence|]. intros _ H.
  inversion H as [|? ? [x Hx] _]; subst. simpl in Hx. subst h.
  eexists. unfold sections_text; simpl. unfold section_text; simpl. reflexivity.
Qed.

Lemma len_nil_iff s : (len s =? 0)%Z = true <-> s = [].
Proof.
  unfold len. rewrite Z.eqb_eq. destruct s; simpl; split; intros; try congruence; lia.
Qed.

Lemma section_step_eq m sections cur h b :
  section_step m (sections, cur) (h, b)
  = if negb (len cur =? 0)%Z && (len cur + len h + len b >? m)%Z
    then (sections ++ [strip cur], h ++ b)
    else (sections, cur ++ h ++ b).
Proof.
  unfold section_step. cbn [fst snd].
  now destruct (negb (len cur =? 0)%Z && (len cur + len h + len b >? m)%Z).
Qed.

(** The chunks are the groups into which the loop cuts the sequence of
    heading-sections: consecutive, none empty, and each within the bound
    unless it is a single section. *)
Lemma section_loop_groups m secs : forall sections curg,
  Forall (fun p => starts_with_hash (fst p)) (curg ++ secs) ->
  within_bound m curg ->
  exists groups,
    finish (fold_left (section_step m) secs (sections, sections_text curg))
    = sections ++ map chunk_of groups
    /\ concat groups = curg ++ secs
    /\ Forall (fun g => g <> []) groups
    /\ Forall (within_bound m) groups.
Proof.
  induction secs as [|[h b] r IH]; intros sections curg Hh Hb.
  - rewrite app_nil_r in *. simpl fold_left. unfold finish. cbn [fst snd].
    destruct curg as [|p g].
    + exists []. simpl. rewrite app_nil_r. repeat split; constructor.
    + destruct (sections_text_hash (p :: g) ltac:(congruence) Hh) as [x Hx].
      rewrite Hx. exists [p :: g]. cbn [map concat]. unfold chunk_of. rewrite Hx.
      rewrite app_nil_r. repeat split.
      * constructor; [congruence|constructor].
      * constructor; [exact Hb|constructor].
  - cbn [fold_left]. rewrite section_step_eq.
    destruct (negb (len (sections_text curg) =? 0)%Z
              && (len (sections_text curg) + len h + len b >? m)%Z) eqn:E.
    + apply andb_true_iff in E. destruct E as [E1 E2].
      assert (Hne : curg <> []).
      { intros ->. unfold sections_text in E1. simpl in E1. discriminate. }
      assert (Hh' : Forall (fun p => starts_with_hash (fst p)) ([(h, b)] ++ r)).
      { apply Forall_app in Hh. tauto. }
      assert (Hb' : within_bound m [(h, b)]).
      { unfold within_bound. simpl. lia. }
      destruct (IH (sections ++ [strip (sections_text curg)]) [(h, b)] Hh' Hb')
        as (groups & Hf & Hc & Hn & Hw).
      exists (curg :: groups).
      replace (h ++ b) with (sections_text [(h, b)])
        by (unfold sections_text, section_text; simpl; now rewrite app_nil_r).
      split; [etransitivity; [exact Hf|]; simpl; now rewrite <- app_assoc|].
      split; [simpl; now rewrite Hc|].
      split; constructor; auto.
    + assert (Hh' : Forall (fun p => starts_with_hash (fst p)) ((curg ++ [(h, b)]) ++ r)).
      { now rewrite <- app_assoc. }
      assert (Hb' : within_bound m (curg ++ [(h, b)])).
      { unfold within_bound. rewrite length_app. simpl. intros Hl.
        assert (Hne : curg <> []) by (destruct curg; simpl in *; [lia|congruence]).
        apply Forall_app in Hh. destruct Hh as [Hh _].
        destruct (sections_text_hash curg Hne Hh) as [x Hx].
        rewrite sections_text_app. unfold len in *. rewrite length_app.
        rewrite Hx in E. unfold sections_text at 2. unfold section_text. simpl.
        rewrite app_nil_r, length_app. rewrite Hx. simpl length in *.
        apply andb_false_iff in E. destruct E as [E|E].
        - apply negb_false_iff, Z.eqb_eq in E. lia.
        - rewrite Z.gtb_ltb in E. apply Z.ltb_ge in E. lia. }
      destruct (IH sections (curg ++ [(h, b)]) Hh' Hb')
        as (groups & Hf & Hc & Hn & Hw).
      exists groups.
      replace (sections_text curg ++ h ++ b) with (sections_text (curg ++ [(h, b)])).
      * split; [exact Hf|]. split; [now rewrite Hc, <- app_assoc|]. split; auto.
      * rewrite sections_text_app. unfold sections_text at 2. unfold section_text.
        simpl. now rewrite app_nil_r.
Qed.

(** The structure of the result of [split_markdown]. *)
Lemma split_markdown_groups text m :
  exists groups,
    split_markdown text m = map chunk_of groups
    /\ concat groups = heading_sections text
    /\ Forall (fun g => g <> []) groups
    /\ Forall (within_bound m) groups.
Proof.
  rewrite split_markdown_sections.
  destruct (section_loop_groups m (heading_sections text) [] [])
    as (groups & Hf & Hc & Hn & Hw).
  - apply heading_sections_hash.
  - unfold within_bound. simpl. lia.
  - exists groups. repeat split; auto.
Qed.

(* ================================================================== *)
(** * Proofs: where the headings are *)
(* ================================================================== *)

Lemma scan_no_fuel_needed fuel bol s :
  (length s <= fuel)%nat ->
  scan fuel bol [] s = scan (S (length s)) bol [] s.
Proof. intros H. apply scan_fuel; lia. Qed.

(** What is found does not depend on the text before the first heading. *)
Lemma scan_skip fuel : forall bol s,
  (length s <= fuel)%nat ->
  snd (scan fuel bol [] s) = []
  \/ scan fuel true [] (skipn (length (fst (scan fuel bol [] s))) s)
     = ([], snd (scan fuel bol [] s)).
Proof.
  induction fuel as [|f IH]; intros bol s Hlen; [now left|].
  simpl scan at 1 3 4.
  destruct (if bol then match_heading s else None) as [[h rest]|] eqn:E.
  - right. destruct bol; [|discriminate].
    destruct (scan f (is_nl (last h 0)) [] rest) as [body more] eqn:Es.
    simpl. rewrite E, Es. reflexivity.
  - destruct s as [|c r]; [now left|]. simpl in Hlen.
    rewrite scan_gap. cbn [fst snd].
    destruct (IH (is_nl c) r ltac:(lia)) as [H|H]; [now left|right].
    rewrite length_app. simpl length. simpl skipn.
    assert (Hl : (length (skipn (length (fst (scan f (is_nl c) [] r))) r) <= f)%nat)
      by (rewrite length_skipn; lia).
    rewrite (scan_fuel (S f) f) by lia. exact H.
Qed.

Lemma preamble_all text : heading_sections text = [] -> preamble text = text.
Proof.
  intros H. pose proof (text_decomposition text) as Ht. rewrite H in Ht.
  unfold sections_text in Ht. cbn [map concat] in Ht.
  rewrite app_nil_r in Ht. now symmetry.
Qed.

Lemma heading_sections_skip_preamble text :
  heading_sections (skipn (length (preamble text)) text) = heading_sections text.
Proof.
  destruct (scan_skip (S (length text)) true text ltac:(lia)) as [H|H].
  - change (heading_sections text = []) in H.
    rewrite (preamble_all _ H), skipn_all, H. reflexivity.
  - change (scan (S (length text)) true [] (skipn (length (preamble text)) text)
            = ([], heading_sections text)) in H.
    unfold heading_sections at 1.
    rewrite <- (scan_no_fuel_needed (S (length text)));
      [now rewrite H|]. rewrite length_skipn. lia.
Qed.

Lemma last_cons_nl (c : char) (a : str) : last (c :: a) 0 = NL ->
  (a = [] /\ is_nl c = true) \/ last a 0 = NL.
Proof.
  destruct a as [|x a]; simpl.
  - intros H. left. split; [reflexivity|]. now rewrite H.
  - intros H. now right.
Qed.

Lemma heading_occurs_step (bol : bool) (c : char) (r : str) :
  (if bol then match_heading (c :: r) else None) = None ->
  (heading_occurs bol (c :: r) <-> heading_occurs (is_nl c) r).
Proof.
  intros E. split.
  - intros (a & b & h & rest & Hs & Hp & Hm).
    destruct a as [|x a].
    + simpl in Hs. subst b. destruct Hp as [[_ ->]|Hp]; [congruence|discriminate].
    + simpl in Hs. injection Hs as -> ->.
      exists a, b, h, rest. split; [reflexivity|]. split; [|exact Hm].
      destruct Hp as [[Hp _]|Hp]; [discriminate|].
      apply last_cons_nl in Hp. tauto.
  - intros (a & b & h & rest & Hs & Hp & Hm).
    exists (c :: a), b, h, rest. subst r. split; [reflexivity|]. split; [|exact Hm].
    right. destruct Hp as [[-> Hc]|Hp].
    + simpl. unfold is_nl in Hc. now apply N.eqb_eq in Hc.
    + destruct a; [discriminate|exact Hp].
Qed.

Lemma scan_finds fuel : forall bol s,
  (length s <= fuel)%nat ->
  (snd (scan fuel bol [] s) = [] <-> ~ heading_occurs bol s).
Proof.
  induction fuel as [|f IH]; intros bol s Hlen.
  - destruct s; [|simpl in Hlen; lia]. simpl. split; [|reflexivity].
    intros _ (a & b & h & rest & Hs & _ & Hm).
    symmetry in Hs. apply app_eq_nil in Hs. destruct Hs as [_ ->]. discriminate.
  - simpl scan.
    destruct (if bol then match_heading s else None) as [[h rest]|] eqn:E.
    + destruct (scan f (is_nl (last h 0)) [] rest) as [body more]. simpl.
      split; [discriminate|]. intros H. exfalso. apply H.
      destruct bol; [|discriminate].
      exists [], s, h, rest. repeat split; auto.
    + destruct s as [|c r].
      * simpl. split; [|reflexivity].
        intros _ (a & b & h & rest & Hs & _ & Hm).
        symmetry in Hs. apply app_eq_nil in Hs. destruct Hs as [_ ->]. discriminate.
      * simpl in Hlen. rewrite scan_gap. cbn [snd].
        rewrite (heading_occurs_step _ _ _ E). apply IH. lia.
Qed.

Lemma has_heading_occurs text : has_heading text <-> heading_occurs true text.
Proof.
  split; intros (a & b & h & rest & Hs & Hp & Hm); exists a, b, h, rest;
    (split; [exact Hs|]); (split; [|exact Hm]); tauto.
Qed.

Lemma heading_sections_nil_iff text :
  heading_sections text = [] <-> ~ has_heading text.
Proof.
  rewrite has_heading_occurs. apply scan_finds. lia.
Qed.

Lemma split_markdown_nil_iff text m :
  split_markdown text m = [] <-> heading_sections text = [].
Proof.
  destruct (split_markdown_groups text m) as (groups & Hs & Hc & Hn & _).
  rewrite Hs, <- Hc. split.
  - intros H. apply map_eq_nil in H. now subst.
  - intros H. destruct groups as [|g gs]; [reflexivity|].
    inversion Hn; subst. simpl in H. apply app_eq_nil in H. tauto.
Qed.

Lemma match_heading_first_hash c r h rest :
  match_heading (c :: r) = Some (h, rest) -> c = HASH.
Proof.
  intros H. pose proof (match_heading_some _ _ _ H) as (Hs & _ & [x Hx]).
  subst h. simpl in Hs. congruence.
Qed.

Lemma whitespace_no_heading text :
  Forall (fun c => is_space c = true) text -> ~ has_heading text.
Proof.
  intros Hw (a & b & h & rest & Hs & _ & Hm). subst text.
  apply Forall_app in Hw. destruct Hw as [_ Hw].
  destruct b as [|c r]; [discriminate|].
  apply match_heading_first_hash in Hm. subst c.
  inversion Hw; subst. discriminate.
Qed.

(* ================================================================== *)
(** * The preamble is the text before the first heading line *)
(* ================================================================== *)

(** No heading line starts inside the preamble. *)
Lemma scan_preamble_first fuel : forall bol s a b h rest,
  (length s <= fuel)%nat ->
  s = a ++ b -> (a = [] /\ bol = true \/ last a 0 = NL) ->
  match_heading b = Some (h, rest) ->
  (length (fst (scan fuel bol [] s)) <= length a)%nat.
Proof.
  induction fuel as [|f IH]; intros bol s a b h rest Hlen Hs Hp Hm.
  - destruct s; [|simpl in Hlen; lia].
    symmetry in Hs. apply app_eq_nil in Hs. destruct Hs as [_ ->]. discriminate.
  - simpl scan.
    destruct (if bol then match_heading s else None) as [[h' rest']|] eqn:E.
    + destruct (scan f (is_nl (last h' 0)) [] rest'). simpl. lia.
    + destruct s as [|c r].
      * symmetry in Hs. apply app_eq_nil in Hs. destruct Hs as [_ ->]. discriminate.
      * destruct a as [|x a].
        -- simpl in Hs. subst b.
           destruct Hp as [[_ ->]|Hp]; [congruence|discriminate].
        -- simpl in Hs. injection Hs as -> ->. simpl in Hlen.
           rewrite scan_gap. cbn [fst]. rewrite length_app. simpl.
           apply le_n_S. apply (IH (is_nl x) (a ++ b) a b h rest); auto; [lia|].
           destruct Hp as [[Hp _]|Hp]; [discriminate|].
           apply last_cons_nl in Hp. tauto.
Qed.

Lemma preamble_before_headings text a b h rest :
  text = a ++ b -> (a = [] \/ last a 0 = NL) ->
  match_heading b = Some (h, rest) ->
  (length (preamble text) <= length a)%nat.
Proof.
  intros Hs Hp Hm. unfold preamble.
  apply (scan_preamble_first (S (length text)) true text a b h rest); auto.
  tauto.
Qed.

(** The first heading-section starts right after the preamble, at the
    start of a line. *)
Lemma scan_first_heading fuel : forall bol s h body more,
  (length s <= fuel)%nat ->
  snd (scan fuel bol [] s) = (h, body) :: more ->
  exists rest,
    match_heading (skipn (length (fst (scan fuel bol [] s))) s) = Some (h, rest)
    /\ (fst (scan fuel bol [] s) = [] /\ bol = true
        \/ last (fst (scan fuel bol [] s)) 0 = NL).
Proof.
  induction fuel as [|f IH]; intros bol s h body more Hlen; [discriminate|].
  simpl scan.
  destruct (if bol then match_heading s else None) as [[h' rest']|] eqn:E.
  - destruct (scan f (is_nl (last h' 0)) [] rest') as [body' more'].
    cbn [fst snd]. intros [= -> -> ->]. exists rest'.
    destruct bol; [|discriminate]. simpl. split; [exact E|now left].
  - destruct s as [|c r]; [discriminate|]. simpl in Hlen.
    rewrite scan_gap. cbn [fst snd]. intros Hsnd.
    destruct (IH (is_nl c) r h body more ltac:(lia) Hsnd) as (rest & Hm & Hp).
    exists rest. rewrite length_app. simpl length. simpl skipn.
    split; [exact Hm|]. right.
    destruct Hp as [[-> Hc]|Hp].
    + simpl. now apply is_nl_eq.
    + destruct (fst (scan f (is_nl c) [] r)) as [|y z]; [discriminate|].
      exact Hp.
Qed.

Lemma first_heading_after_preamble text h body more :
  heading_sections text = (h, body) :: more ->
  exists rest,
    match_heading (skipn (length (preamble text)) text) = Some (h, rest)
    /\ (preamble text = [] \/ last (preamble text) 0 = NL).
Proof.
  intros H. unfold heading_sections, preamble in *.
  destruct (scan_first_heading (S (length text)) true text h body more
              ltac:(lia) H)
    as (rest & Hm & Hp).
  exists rest. split; [exact Hm|]. tauto.
Qed.

(** The result of the search does not depend on the fuel. *)
Lemma re_split_from_fuel f1 f2 bol gap s :
  (length s <= f1)%nat -> (length s <= f2)%nat ->
  re_split_from f1 bol gap s = re_split_from f2 bol gap s.
Proof.
  intros H1 H2. rewrite !re_split_from_scan.
  now rewrite (scan_fuel f1 f2 bol gap s H1 H2).
Qed.

(** The list returned by [re.split] has an odd length. *)
Lemma length_re_split_headings text :
  length (re_split_headings text) = S (2 * length (heading_sections text)).
Proof.
  rewrite re_split_headings_sections. simpl. now rewrite length_interleave.
Qed.

(** The chunks are pieces of the text after the preamble, stripped. *)
Lemma split_markdown_pieces text m :
  exists pieces,
    text = preamble text ++ concat pieces
    /\ split_markdown text m = map strip pieces
    /\ Forall starts_with_hash pieces.
Proof.
  destruct (split_markdown_groups text m) as (groups & Hs & Hc & Hn & _).
  exists (map sections_text groups). repeat split.
  - rewrite (text_decomposition text) at 1. f_equal. rewrite <- Hc.
    apply sections_text_concat.
  - rewrite Hs, map_map. reflexivity.
  - pose proof (heading_sections_hash text) as Hh. rewrite <- Hc in Hh.
    clear Hs Hc. induction groups as [|g gs IH]; [constructor|].
    simpl in Hh. apply Forall_app in Hh. destruct Hh as [Hg Hgs].
    inversion Hn; subst. constructor; [|now apply IH].
    now apply sections_text_hash.
Qed.

(* ================================================================== *)
(** * The chunker: its properties *)
(* ================================================================== *)

(** C1, as stated, fails: on the normalized text ["intro\n# A"] the only
    chunk is ["# A"], and no partition of the text gives it. *)
Lemma lossless_partition_fails :
  NormalizedText text_with_preamble
  /\ ~ lossless_partition text_with_preamble
         (split_markdown text_with_preamble default_max_chunk_size).
Proof.
  split.
  - split; [|reflexivity]. repeat constructor.
  - intros (pieces & Hc & Hm).
    destruct pieces as [|p [|q ps]]; try discriminate.
    simpl in Hc. rewrite app_nil_r in Hc. subst p.
    vm_compute in Hm. discriminate.
Qed.

(** C1 (amended): the chunks, in order, are the pieces of the text that
    follows the preamble (the text before the first heading line, which
    is [headlines[0]]), each piece starting with a heading and having
    lost nothing but its outer whitespace; the preamble is the only part
    of the text left out. *)
Theorem lossless_after_preamble text m :
  exists pieces,
    text = preamble text ++ concat pieces
    /\ split_markdown text m = map strip pieces
    /\ Forall starts_with_hash pieces
    /\ preamble text = nth 0 (re_split_headings text) [].
Proof.
  destruct (split_markdown_pieces text m) as (pieces & H1 & H2 & H3).
  exists pieces. repeat split; auto.
  now rewrite re_split_headings_sections.
Qed.

(** C2: the chunks are made of whole consecutive heading-sections of the
    list that [re.split] returns, none of them cut; a chunk made of two
    or more is at most [max_chunk_size] long, and a chunk longer than
    that is a single heading-section which alone is longer. *)
Theorem soft_size_bound text m :
  exists groups,
    re_split_headings text = preamble text :: interleave (concat groups)
    /\ split_markdown text m = map chunk_of groups
    /\ Forall (chunk_within_bound m) groups.
Proof.
  destruct (split_markdown_groups text m) as (groups & Hs & Hc & Hn & Hw).
  exists groups. split; [rewrite Hc; apply re_split_headings_sections|].
  split; [exact Hs|].
  rewrite Forall_forall in *. intros g Hg.
  specialize (Hn g Hg). specialize (Hw g Hg). unfold chunk_within_bound.
  destruct g as [|s [|s' g']]; [congruence|left|right].
  - exists s. split; [reflexivity|].
    pose proof (len_strip (sections_text [s])) as Hl.
    unfold chunk_of. unfold sections_text in Hl at 2. simpl in Hl.
    rewrite app_nil_r in Hl. lia.
  - split; [simpl; lia|]. split; [apply len_strip|].
    apply Hw. simpl. lia.
Qed.

(** C3, as stated, fails: ["hello"] is not empty and gives no chunk. *)
Lemma nonempty_text_without_chunk :
  text_without_heading <> []
  /\ split_markdown text_without_heading default_max_chunk_size = [].
Proof. split; [discriminate|reflexivity]. Qed.

(** C3 (amended): [split_markdown] is total; it returns at least one
    chunk for a text with a heading line and none for a text without, in
    particular none for an empty or whitespace-only text. *)
Theorem chunks_iff_heading text m :
  (has_heading text -> split_markdown text m <> [])
  /\ (~ has_heading text -> split_markdown text m = [])
  /\ (Forall (fun c => is_space c = true) text -> split_markdown text m = []).
Proof.
  pose proof (split_markdown_nil_iff text m) as H1.
  pose proof (heading_sections_nil_iff text) as H2.
  repeat split.
  - intros Hh He. apply H1, H2 in He. contradiction.
  - intros Hn. apply H1, H2, Hn.
  - intros Hw. apply H1, H2. now apply whitespace_no_heading.
Qed.

Lemma chunks_iff_heading_witness :
  split_markdown (of_string "# A") 750 <> []
  /\ split_markdown (of_string "hello") 750 = []
  /\ split_markdown (of_string "  ") 750 = [].
Proof.
  pose proof (chunks_iff_heading (of_string "# A") 750) as (H1 & _ & _).
  pose proof (chunks_iff_heading (of_string "hello") 750) as (_ & H2 & _).
  pose proof (chunks_iff_heading (of_string "  ") 750) as (_ & _ & H3).
  split; [|split].
  - apply H1. exists [], (of_string "# A"), (of_string "# A"), [].
    repeat split; auto.
  - apply H2. apply heading_sections_nil_iff. reflexivity.
  - apply H3. repeat constructor.
Defined.

(** C4: the chunk example. *)
Theorem chunk_example :
  split_markdown example_text 750
  = [of_string "# A
short"; of_string "# B
" ++ repeat 120 800].
Proof. vm_compute. reflexivity. Qed.

(** C10: every chunk starts with ["#"], and the chunks are those of the
    text without its preamble, the text before the first heading line
    ([headlines[0]]). *)
Theorem chunks_start_with_heading text m :
  Forall starts_with_hash (split_markdown text m)
  /\ split_markdown text m
     = split_markdown (skipn (length (preamble text)) text) m
  /\ preamble text = nth 0 (re_split_headings text) [].
Proof.
  split; [|split].
  - destruct (split_markdown_pieces text m) as (pieces & _ & Hs & Hh).
    rewrite Hs. clear Hs. induction Hh as [|p ps [r ->] _ IH]; [constructor|].
    simpl. constructor; [|exact IH].
    destruct (strip_cons HASH r is_space_hash) as [r' Hr]. now exists r'.
  - rewrite !split_markdown_sections, heading_sections_skip_preamble. reflexivity.
  - now rewrite re_split_headings_sections.
Qed.

(* ================================================================== *)
(** * The fetcher *)
(* ================================================================== *)

Lemma retrying_response body net more n v :
  body (net n) = Returned v -> retrying body net more n = (Returned v, []).
Proof. intros H. destruct more; simpl; now rewrite H. Qed.

Lemma retrying_raise body net more n e :
  body (net n) = Raised e ->
  retrying body net (S more) n
  = (fst (retrying body net more (S n)),
     Warning_retrying n e :: Sleep 3 :: snd (retrying body net more (S n))).
Proof.
  intros H. simpl. rewrite H.
  now destruct (retrying body net more (S n)).
Qed.

(** C7: a request that completes with a response, whatever its status
    code, makes [fetch_url] return the body of that response: at once
    when it is the first request, and otherwise after the failed requests
    before it, which are the only ones retried. *)
Theorem http_status_not_checked (net : nat -> get_result) (rep : response)
    (k : nat) :
  (1 <= k <= 3)%nat ->
  net k = Get_response rep ->
  (forall j, (1 <= j < k)%nat -> exists e, net j = Get_raises e) ->
  fst (fetch_url net) = Returned (text rep)
  /\ (k = 1%nat -> fetch_url net = (Returned (text rep), [])).
Proof.
  intros Hk Hrep Hfail. unfold fetch_url.
  assert (Hbody : fetch_url_body (net k) = Returned (text rep))
    by now rewrite Hrep.
  destruct k as [|[|[|[|k]]]]; try lia.
  - rewrite (retrying_response _ _ _ _ _ Hbody). split; reflexivity.
  - destruct (Hfail 1%nat ltac:(lia)) as [e1 H1].
    rewrite (retrying_raise _ _ _ _ e1) by now rewrite H1.
    rewrite (retrying_response _ _ _ _ _ Hbody). split; [reflexivity|lia].
  - destruct (Hfail 1%nat ltac:(lia)) as [e1 H1].
    destruct (Hfail 2%nat ltac:(lia)) as [e2 H2].
    rewrite (retrying_raise _ _ _ _ e1) by now rewrite H1.
    rewrite (retrying_raise _ _ _ _ e2) by now rewrite H2.
    rewrite (retrying_response _ _ _ _ _ Hbody). split; [reflexivity|lia].
Qed.

Lemma http_status_not_checked_witness :
  fst (fetch_url net_two_failures) = Returned (of_string "Service Unavailable")
  /\ fetch_url (fun _ => Get_response page_503)
     = (Returned (of_string "Service Unavailable"), []).
Proof.
  split.
  - apply (http_status_not_checked net_two_failures page_503 3).
    + lia.
    + reflexivity.
    + intros j Hj. exists "ConnectionError"%string.
      destruct j as [|[|[|j]]]; try lia; reflexivity.
  - apply (http_status_not_checked (fun _ => Get_response page_503) page_503 1).
    + lia.
    + reflexivity.
    + intros j Hj. lia.
    + reflexivity.
Defined.

(* ================================================================== *)
(** * The URL discoverer *)
(* ================================================================== *)

Lemma entry_step_link base urls count i :
  fst (entry_step base (urls, count) i) = urls ++ entry_link base i.
Proof.
  unfold entry_step, entry_link, get_url.
  destruct (url_field i) as [[|[|c u]]|]; simpl; now rewrite ?app_nil_r.
Qed.

Lemma entries_loop_links base l : forall urls count,
  fst (fold_left (entry_step base) l (urls, count))
  = urls ++ flat_map (entry_link base) l.
Proof.
  induction l as [|i l IH]; intros urls count; cbn [fold_left flat_map].
  - cbn [fst]. now rewrite app_nil_r.
  - pose proof (entry_step_link base urls count i) as H.
    destruct (entry_step base (urls, count) i) as [urls' count'].
    cbn [fst] in H. subst urls'. rewrite IH. now rewrite <- app_assoc.
Qed.

Lemma section_urls_step_links base urls log l1 :
  fst (section_urls_step base (urls, log) l1)
  = urls ++ flat_map (entry_link base) (entries l1).
Proof.
  unfold section_urls_step.
  pose proof (entries_loop_links base (entries l1) urls 0%nat) as H.
  destruct (fold_left (entry_step base) (entries l1) (urls, 0%nat)) as [urls' count].
  exact H.
Qed.

Lemma sections_loop_links base tree : forall urls log,
  fst (fold_left (section_urls_step base) tree (urls, log))
  = urls ++ flat_map (fun l1 => flat_map (entry_link base) (entries l1)) tree.
Proof.
  induction tree as [|l1 tree IH]; intros urls log; cbn [fold_left flat_map].
  - cbn [fst]. now rewrite app_nil_r.
  - pose proof (section_urls_step_links base urls log l1) as H.
    destruct (section_urls_step base (urls, log) l1) as [urls' log'].
    cbn [fst] in H. subst urls'. rewrite IH. now rewrite <- app_assoc.
Qed.

(** C5: the URLs found are those of the entries with a non-empty ["url"],
    each behind [base_url], in the order of the sections and, within a
    section, of its entries; the tree of the example gives the three URLs
    of the example. *)
Theorem discoverer_order (base_url : str) (tree : list nav_section) :
  fst (collect_urls base_url tree)
  = flat_map (fun l1 => flat_map (entry_link base_url) (entries l1)) tree
  /\ fst (collect_urls base_url example_tree)
     = [base_url ++ of_string "/a"; base_url ++ of_string "/b";
        base_url ++ of_string "/c"].
Proof.
  assert (H : forall t, fst (collect_urls base_url t)
              = flat_map (fun l1 => flat_map (entry_link base_url) (entries l1)) t).
  { intros t. unfold collect_urls.
    pose proof (sections_loop_links base_url t []
                  [Info_found_sections (length t)]) as H.
    destruct (fold_left _ _ _) as [urls log]. exact H. }
  split; [apply H|]. rewrite H. reflexivity.
Qed.

(* ================================================================== *)
(** * The post-processing of the extracted content *)
(* ================================================================== *)

Lemma dropwhile_idem p s : dropwhile p (dropwhile p s) = dropwhile p s.
Proof.
  induction s as [|c r IH]; simpl; [reflexivity|].
  destruct (p c) eqn:E; [exact IH|]. simpl. now rewrite E.
Qed.

Lemma dropwhile_Forall (P : char -> Prop) p s :
  Forall P s -> Forall P (dropwhile p s).
Proof.
  induction 1 as [|c r Hc Hr IH]; simpl; [constructor|].
  destruct (p c); [exact IH|now constructor].
Qed.

Lemma strip_Forall (P : char -> Prop) s : Forall P s -> Forall P (strip s).
Proof.
  intros H. unfold strip, rstrip, lstrip.
  apply Forall_rev, dropwhile_Forall, Forall_rev, dropwhile_Forall, H.
Qed.

Lemma rstrip_idem s : rstrip (rstrip s) = rstrip s.
Proof. unfold rstrip. now rewrite rev_involutive, dropwhile_idem. Qed.

Lemma lstrip_head s :
  lstrip s = [] \/ exists c r, lstrip s = c :: r /\ is_space c = false.
Proof.
  unfold lstrip. induction s as [|c r IH]; simpl; [now left|].
  destruct (is_space c) eqn:E; [exact IH|]. right. now exists c, r.
Qed.

Lemma strip_idem s : strip (strip s) = strip s.
Proof.
  unfold strip at 1.
  assert (H : lstrip (strip s) = strip s).
  { unfold strip. destruct (lstrip_head s) as [->|(c & r & -> & Hc)].
    - reflexivity.
    - destruct (rstrip_cons c r Hc) as [r' ->]. now apply lstrip_not_space. }
  rewrite H. unfold strip. apply rstrip_idem.
Qed.

Lemma linebreak_nl c : is_linebreak c = false -> is_nl c = false.
Proof.
  unfold is_linebreak, is_nl, NL. intros H.
  destruct (N.eqb_spec c 10) as [->|]; [discriminate|reflexivity].
Qed.

Lemma is_nl_linebreak c : is_nl c = true -> is_linebreak c = true.
Proof.
  intros H. destruct (is_linebreak c) eqn:E; [reflexivity|].
  apply linebreak_nl in E. congruence.
Qed.

(** ** [splitlines] *)

Lemma splitlines_from_lbfree s : forall cur,
  lbfree cur -> Forall lbfree (splitlines_from cur s).
Proof.
  induction s as [s IH] using (induction_ltof1 _ (@length char)).
  unfold ltof in IH. intros cur Hcur. destruct s as [|c r]; simpl.
  - destruct cur; [constructor|constructor; [exact Hcur|constructor]].
  - destruct (is_linebreak c) eqn:E.
    + constructor; [exact Hcur|].
      destruct r as [|c2 r2]; [constructor|].
      destruct ((c =? CR) && (c2 =? NL)); apply IH; simpl; try lia; constructor.
    + apply IH; [simpl; lia|]. apply Forall_app. split; [exact Hcur|].
      now repeat constructor.
Qed.

Lemma splitlines_from_line l : forall cur s,
  lbfree l -> splitlines_from cur (l ++ s) = splitlines_from (cur ++ l) s.
Proof.
  induction l as [|c l IH]; intros cur s H; simpl.
  - now rewrite app_nil_r.
  - inversion H as [|? ? Hc Hl]; subst. rewrite Hc.
    rewrite IH by exact Hl. now rewrite <- app_assoc.
Qed.

Lemma splitlines_from_nl cur s :
  splitlines_from cur (NL :: s) = cur :: splitlines_from [] s.
Proof. simpl. destruct s; reflexivity. Qed.

Lemma splitlines_join L :
  Forall lbfree L -> splitlines (join_nl L) = drop_last_empty L.
Proof.
  unfold splitlines. induction 1 as [|l rest Hl Hrest IH]; [reflexivity|].
  destruct rest as [|l2 rest].
  - simpl. rewrite <- (app_nil_r l) at 1.
    rewrite splitlines_from_line by exact Hl. simpl. reflexivity.
  - change (join_nl (l :: l2 :: rest)) with (l ++ NL :: join_nl (l2 :: rest)).
    rewrite splitlines_from_line by exact Hl.
    rewrite splitlines_from_nl, IH. reflexivity.
Qed.

(** ** [chomp] *)

Lemma chomp_app a x : x <> [] -> chomp (a ++ x) = a ++ chomp x.
Proof.
  intros Hx. induction a as [|c a IH]; [reflexivity|].
  simpl app. destruct (a ++ x) as [|y z] eqn:E.
  - apply app_eq_nil in E. tauto.
  - simpl chomp at 1. now rewrite <- IH.
Qed.

Lemma chomp_nl a : chomp (a ++ [NL]) = a.
Proof.
  rewrite chomp_app by discriminate. simpl. now rewrite app_nil_r.
Qed.

Lemma chomp_not_nl s : is_nl (last s 0) = false -> chomp s = s.
Proof.
  induction s as [|c r IH]; [reflexivity|].
  destruct r as [|c2 r]; simpl.
  - now intros ->.
  - intros H. f_equal. apply IH. exact H.
Qed.

Lemma chomp_tail s :
  s = chomp s ++ (if is_nl (last s 0) then [NL] else []).
Proof.
  induction s as [|c r IH]; [reflexivity|].
  destruct r as [|c2 r].
  - simpl. destruct (is_nl c) eqn:E; [|reflexivity].
    apply is_nl_eq in E. now subst.
  - change (c :: c2 :: r
            = c :: (chomp (c2 :: r)
                    ++ (if is_nl (last (c2 :: r) 0) then [NL] else []))).
    f_equal. exact IH.
Qed.

Lemma last_nlfree l :
  Forall (fun c => is_nl c = false) l -> l <> [] -> is_nl (last l 0) = false.
Proof.
  induction 1 as [|c r Hc Hr IH]; [congruence|]. intros _.
  destruct r as [|c2 r]; [exact Hc|]. apply IH. discriminate.
Qed.

Lemma join_nl_cons l L : L <> [] -> join_nl (l :: L) = l ++ NL :: join_nl L.
Proof. destruct L; [congruence|reflexivity]. Qed.

Lemma join_drop_last_empty L :
  Forall (Forall (fun c => is_nl c = false)) L ->
  join_nl (drop_last_empty L) = chomp (join_nl L).
Proof.
  induction 1 as [|l rest Hl Hrest IH]; [reflexivity|].
  destruct rest as [|l2 rest].
  - simpl. destruct l as [|c l]; [reflexivity|].
    symmetry. apply chomp_not_nl. apply last_nlfree; [exact Hl|discriminate].
  - change (drop_last_empty (l :: l2 :: rest))
      with (l :: drop_last_empty (l2 :: rest)).
    change (join_nl (l :: l2 :: rest)) with (l ++ NL :: join_nl (l2 :: rest)).
    destruct (join_nl (l2 :: rest)) as [|y z] eqn:E.
    + destruct l2; [|destruct rest; discriminate].
      destruct rest; [|destruct l; discriminate].
      simpl. now rewrite chomp_nl.
    + assert (Hd : drop_last_empty (l2 :: rest) <> []).
      { destruct rest; [|discriminate]. destruct l2; [discriminate|].
        simpl. discriminate. }
      rewrite join_nl_cons by exact Hd. rewrite IH.
      change (l ++ NL :: y :: z) with (l ++ [NL] ++ y :: z).
      rewrite !chomp_app by discriminate. reflexivity.
Qed.

Lemma drop_last_empty_incl L : incl (drop_last_empty L) L.
Proof.
  induction L as [|l rest IH]; [apply incl_refl|].
  destruct rest as [|l2 rest].
  - destruct l; [apply incl_nil_l|apply incl_refl].
  - change (drop_last_empty (l :: l2 :: rest))
      with (l :: drop_last_empty (l2 :: rest)).
    apply incl_cons; [now left|]. now apply incl_tl.
Qed.

(** ** [re.sub] on runs of newlines *)

Lemma sub_newlines_nlfree l : forall seen s,
  Forall (fun c => is_nl c = false) l -> l <> [] ->
  sub_newlines seen (l ++ s) = l ++ sub_newlines 0 s.
Proof.
  induction l as [|c l IH]; intros seen s H Hne; [congruence|].
  inversion H as [|? ? Hc Hl]; subst. simpl. rewrite Hc. f_equal.
  destruct l as [|c2 l]; [reflexivity|]. apply IH; [exact Hl|discriminate].
Qed.

Lemma sub_newlines_nlfree_all l seen :
  Forall (fun c => is_nl c = false) l -> sub_newlines seen l = l.
Proof.
  intros H. destruct l as [|c l]; [reflexivity|].
  rewrite <- (app_nil_r (c :: l)) at 1.
  rewrite sub_newlines_nlfree by (auto; discriminate).
  simpl. now rewrite app_nil_r.
Qed.

Lemma sub_newlines_nl seen s :
  sub_newlines seen (NL :: s)
  = if (seen <? 2)%nat then NL :: sub_newlines (S seen) s else sub_newlines seen s.
Proof. destruct seen as [|[|n]]; reflexivity. Qed.

Lemma sub_newlines_other seen c s :
  is_nl c = false -> sub_newlines seen (c :: s) = c :: sub_newlines 0 s.
Proof. intros H. simpl. now rewrite H. Qed.

(** Collapsing the newlines of joined lines joins some of these lines. *)
Lemma sub_newlines_join L : forall seen,
  L <> [] -> Forall (Forall (fun c => is_nl c = false)) L ->
  exists L', L' <> [] /\ incl L' L
             /\ sub_newlines seen (join_nl L) = join_nl L'.
Proof.
  induction L as [|l rest IH]; intros seen Hne H; [congruence|].
  inversion H as [|? ? Hl Hrest]; subst.
  destruct rest as [|l2 rest].
  - exists [l]. split; [discriminate|]. split; [apply incl_refl|].
    simpl. now apply sub_newlines_nlfree_all.
  - change (join_nl (l :: l2 :: rest)) with (l ++ NL :: join_nl (l2 :: rest)).
    destruct l as [|c l].
    + change ([] ++ NL :: join_nl (l2 :: rest)) with (NL :: join_nl (l2 :: rest)).
      rewrite sub_newlines_nl.
      destruct (seen <? 2)%nat.
      * destruct (IH (S seen) ltac:(discriminate) Hrest) as (L' & Hn & Hi & He).
        exists ([] :: L'). split; [discriminate|]. split.
        -- apply incl_cons; [now left|]. now apply incl_tl.
        -- rewrite He. now rewrite join_nl_cons.
      * destruct (IH seen ltac:(discriminate) Hrest) as (L' & Hn & Hi & He).
        exists L'. split; [exact Hn|]. split; [now apply incl_tl|exact He].
    + rewrite sub_newlines_nlfree by (auto; discriminate).
      rewrite sub_newlines_nl.
      destruct (IH 1%nat ltac:(discriminate) Hrest) as (L' & Hn & Hi & He).
      exists ((c :: l) :: L'). split; [discriminate|]. split.
      * apply incl_cons; [now left|]. now apply incl_tl.
      * change (0 <? 2)%nat with true. cbv iota.
        rewrite He. now rewrite join_nl_cons.
Qed.

Lemma length_sub_newlines s : forall seen,
  (length (sub_newlines seen s) <= length s)%nat.
Proof.
  induction s as [|c r IH]; intros seen; simpl; [lia|].
  destruct (is_nl c).
  - destruct seen as [|[|n]]; simpl.
    + specialize (IH 1%nat). lia.
    + specialize (IH 2%nat). lia.
    + specialize (IH (S (S n))). lia.
  - simpl. specialize (IH 0%nat). lia.
Qed.

Lemma sub_newlines_idem s : forall seen,
  sub_newlines seen (sub_newlines seen s) = sub_newlines seen s.
Proof.
  induction s as [|c r IH]; intros seen; simpl; [reflexivity|].
  destruct (is_nl c) eqn:E.
  - destruct seen as [|[|n]].
    + simpl. rewrite E. now rewrite IH.
    + simpl. rewrite E. now rewrite IH.
    + apply IH.
  - simpl. rewrite E. now rewrite IH.
Qed.

(** A text without a run of three newlines stays so without its last
    newline. *)
Lemma sub_newlines_chomp t : forall seen,
  sub_newlines seen t = t -> sub_newlines seen (chomp t) = chomp t.
Proof.
  induction t as [|c r IH]; intros seen H; [reflexivity|].
  destruct r as [|c2 r].
  - simpl. destruct (is_nl c) eqn:E; [reflexivity|]. simpl. now rewrite E.
  - change (chomp (c :: c2 :: r)) with (c :: chomp (c2 :: r)).
    destruct (is_nl c) eqn:E.
    + apply is_nl_eq in E. subst c. rewrite sub_newlines_nl in H |- *.
      destruct (seen <? 2)%nat.
      * injection H as H. f_equal. now apply IH.
      * exfalso. pose proof (length_sub_newlines (c2 :: r) seen) as Hl.
        rewrite H in Hl. simpl in Hl. lia.
    + rewrite sub_newlines_other in H |- * by exact E.
      injection H as H. f_equal. now apply IH.
Qed.

(** ** The two steps together *)

Lemma lbfree_nlfree l : lbfree l -> Forall (fun c => is_nl c = false) l.
Proof.
  unfold lbfree. apply Forall_impl. intros c. apply linebreak_nl.
Qed.

Lemma stripped_lines_clean s : Forall clean (map strip (splitlines s)).
Proof.
  apply Forall_map.
  pose proof (splitlines_from_lbfree s [] ltac:(constructor)) as H.
  unfold splitlines. revert H. apply Forall_impl. intros l Hl. split.
  - now apply strip_Forall.
  - apply strip_idem.
Qed.

Lemma map_strip_clean L : Forall clean L -> map strip L = L.
Proof.
  induction 1 as [|l rest [_ Hl] _ IH]; [reflexivity|].
  simpl. now rewrite Hl, IH.
Qed.

(** What the post-processing makes of its own result. *)
Lemma normalize_joined L :
  L <> [] -> Forall clean L -> sub_newlines 0 (join_nl L) = join_nl L ->
  normalize_whitespace (join_nl L) = chomp (join_nl L).
Proof.
  intros Hne Hclean Hstable. unfold normalize_whitespace.
  rewrite splitlines_join.
  2:{ revert Hclean. apply Forall_impl. now intros l [Hl _]. }
  rewrite map_strip_clean.
  2:{ rewrite Forall_forall in *. intros l Hl.
      apply Hclean, drop_last_empty_incl, Hl. }
  rewrite join_drop_last_empty.
  2:{ revert Hclean. apply Forall_impl. intros l [Hl _]. now apply lbfree_nlfree. }
  now apply sub_newlines_chomp.
Qed.

(** What the post-processing makes of its own result. *)
Lemma normalize_twice s :
  normalize_whitespace (normalize_whitespace s) = chomp (normalize_whitespace s).
Proof.
  pose proof (stripped_lines_clean s) as Hclean.
  assert (E : normalize_whitespace s
              = sub_newlines 0 (join_nl (map strip (splitlines s)))) by reflexivity.
  rewrite E. clear E.
  destruct (map strip (splitlines s)) as [|l0 L0]; [reflexivity|].
  assert (Hnl : Forall (Forall (fun c => is_nl c = false)) (l0 :: L0)).
  { revert Hclean. apply Forall_impl. intros l [Hl _]. now apply lbfree_nlfree. }
  destruct (sub_newlines_join (l0 :: L0) 0%nat ltac:(discriminate) Hnl)
    as (L' & Hn' & Hi & He).
  assert (Hclean' : Forall clean L').
  { rewrite Forall_forall in *. intros l Hl. apply Hclean, Hi, Hl. }
  assert (Hstable : sub_newlines 0 (join_nl L') = join_nl L').
  { rewrite <- He. apply sub_newlines_idem. }
  rewrite He. now apply normalize_joined.
Qed.

(** C8, as stated, fails: ["a\n\n"] becomes ["a\n"], which becomes ["a"]. *)
Lemma normalize_not_idempotent :
  normalize_whitespace (normalize_whitespace text_with_blank_end)
  <> normalize_whitespace text_with_blank_end.
Proof. vm_compute. discriminate. Qed.

(** C8 (amended): applying the post-processing a second time gives the
    result of the first time without its final newline, if it has one;
    so the result is the same when it does not end with a newline. *)
Theorem normalize_twice_drops_newline s :
  normalize_whitespace s
  = normalize_whitespace (normalize_whitespace s)
    ++ (if is_nl (last (normalize_whitespace s) 0) then [NL] else []).
Proof. rewrite normalize_twice. apply chomp_tail. Qed.

(* ================================================================== *)
(** * The pipeline driver *)
(* ================================================================== *)

Lemma retrying_no_failure body net more : forall n,
  filter is_failure (snd (retrying body net more n)) = [].
Proof.
  induction more as [|more IH]; intros n; simpl.
  - destruct (body (net n)); reflexivity.
  - destruct (body (net n)); [reflexivity|].
    specialize (IH (S n)). destruct (retrying body net more (S n)). exact IH.
Qed.

Lemma read_url_no_failure web convert url :
  filter is_failure (snd (read_url web convert url)) = [].
Proof.
  unfold read_url, fetch_url.
  pose proof (retrying_no_failure fetch_url_body (web url) 2 1) as H.
  destruct (retrying fetch_url_body (web url) 2 1) as [[html|e] evs]; exact H.
Qed.

Lemma process_url_chunks web convert chunks log url :
  fst (process_url web convert (chunks, log) url)
  = chunks ++ chunks_of_url web convert url.
Proof.
  unfold process_url, chunks_of_url.
  destruct (read_url web convert url) as [[content|e] evs]; simpl.
  - reflexivity.
  - now rewrite app_nil_r.
Qed.

Lemma process_url_failures web convert chunks log url :
  filter is_failure (snd (process_url web convert (chunks, log) url))
  = filter is_failure log
    ++ (if url_fails web convert url then [Error_failed_url url] else []).
Proof.
  unfold process_url, url_fails.
  pose proof (read_url_no_failure web convert url) as H.
  destruct (read_url web convert url) as [[content|e] evs]; simpl in *;
    rewrite !filter_app, H; simpl; now rewrite ?app_nil_r.
Qed.

Lemma process_urls web convert urls : forall chunks log,
  let st := fold_left (process_url web convert) urls (chunks, log) in
  fst st = chunks ++ flat_map (chunks_of_url web convert) urls
  /\ filter is_failure (snd st)
     = filter is_failure log
       ++ map Error_failed_url (filter (url_fails web convert) urls).
Proof.
  induction urls as [|url urls IH]; intros chunks log; cbn [fold_left].
  - simpl. now rewrite !app_nil_r.
  - pose proof (process_url_chunks web convert chunks log url) as Hc.
    pose proof (process_url_failures web convert chunks log url) as Hf.
    destruct (process_url web convert (chunks, log) url) as [chunks' log'].
    cbn [fst snd] in Hc, Hf. destruct (IH chunks' log') as [IHc IHf].
    cbv zeta. rewrite IHc, IHf, Hc, Hf. cbn [flat_map filter].
    rewrite <- !app_assoc. split; [reflexivity|].
    destruct (url_fails web convert url); reflexivity.
Qed.

Lemma process_url_log web convert chunks log url :
  snd (process_url web convert (chunks, log) url)
  = log ++ url_events web convert url.
Proof.
  unfold process_url, url_events, outcome_event, url_fails, chunks_of_url.
  destruct (read_url web convert url) as [[content|e] evs]; cbn [fst snd].
  - rewrite <- !app_assoc. reflexivity.
  - rewrite <- !app_assoc. reflexivity.
Qed.

Lemma process_urls_log web convert urls : forall chunks log,
  snd (fold_left (process_url web convert) urls (chunks, log))
  = log ++ flat_map (url_events web convert) urls.
Proof.
  induction urls as [|url urls IH]; intros chunks log; cbn [fold_left flat_map].
  - now rewrite app_nil_r.
  - pose proof (process_url_log web convert chunks log url) as H.
    destruct (process_url web convert (chunks, log) url) as [chunks' log'].
    cbn [snd] in H. subst log'. rewrite IH. now rewrite <- app_assoc.
Qed.

Lemma url_events_failures web convert urls :
  filter is_failure (flat_map (url_events web convert) urls)
  = map Error_failed_url (filter (url_fails web convert) urls).
Proof.
  induction urls as [|url urls IH]; [reflexivity|].
  cbn [flat_map]. rewrite filter_app, IH. unfold url_events at 1.
  rewrite filter_app, read_url_no_failure. unfold outcome_event. simpl.
  destruct (url_fails web convert url); reflexivity.
Qed.

(** C6: in a run over the discovered URLs, the chunks are those of the
    documents that were read, in the order of the URLs; a document that
    raised adds no chunk and is logged once as failed, and the loop logs
    no other failure; no such exception leaves the loop, so that the
    chunks of the run are handed to [save_list_to_file], whose exception,
    if it raises one, is the only one that can end the run. *)
Theorem failure_isolation (isprintable encodable : char -> bool)
    (web : str -> nat -> get_result) (convert : str -> outcome str)
    (urls : list str) (discovery_log : list event) :
  exists r loop_log,
    scrapping_notion isprintable encodable web convert
      (Returned urls, discovery_log) = r
    /\ run_chunks r = flat_map (chunks_of_url web convert) urls
    /\ run_log r = discovery_log ++ loop_log
    /\ filter is_failure loop_log
       = map Error_failed_url (filter (url_fails web convert) urls)
    /\ results_txt r
       = Some (save_list_to_file isprintable encodable (run_chunks r))
    /\ run_raised r
       = raised (save_list_to_file isprintable encodable (run_chunks r)).
Proof.
  unfold scrapping_notion.
  destruct (process_urls web convert urls [] discovery_log) as [Hc _].
  pose proof (process_urls_log web convert urls [] discovery_log) as Hl.
  destruct (fold_left (process_url web convert) urls ([], discovery_log))
    as [chunks log].
  cbn [fst snd app] in Hc, Hl. subst chunks log.
  set (chunks := flat_map (chunks_of_url web convert) urls).
  set (file := save_list_to_file isprintable encodable chunks).
  eexists.
  exists (flat_map (url_events web convert) urls
          ++ Info_chunks_total (length chunks)
             :: match raised file with
                | None => [Info_saved "results.txt"%string]
                | Some _ => []
                end).
  split; [reflexivity|]. cbn [run_chunks run_log results_txt run_raised].
  split; [reflexivity|]. split.
  - destruct (raised file); rewrite <- !app_assoc; reflexivity.
  - split; [|split; reflexivity].
    rewrite filter_app, url_events_failures.
    destruct (raised file); simpl; now rewrite app_nil_r.
Qed.

(** The second of three documents fails: the chunks of the first and of
    the third are there, in this order, with one failure logged, and the
    run ends without exception. *)
Example second_of_three_fails :
  forall isprintable,
    let r := scrapping_notion isprintable utf8_encoding web_ok
               convert_but_doc2 (Returned three_urls, []) in
    run_chunks r = [of_string "# /doc1"; of_string "# /doc3"]
    /\ filter is_failure (run_log r) = [Error_failed_url (of_string "/doc2")]
    /\ run_raised r = None.
Proof.
  intros isprintable. repeat split; vm_compute; reflexivity.
Qed.

(* ================================================================== *)
(** * The sink *)
(* ================================================================== *)

Lemma hex_value_digit d : d < 16 -> hex_value (hex_digit d) = Some d.
Proof.
  intros H.
  assert (Hd : d = 0 \/ d = 1 \/ d = 2 \/ d = 3 \/ d = 4 \/ d = 5 \/ d = 6
               \/ d = 7 \/ d = 8 \/ d = 9 \/ d = 10 \/ d = 11 \/ d = 12
               \/ d = 13 \/ d = 14 \/ d = 15) by lia.
  repeat (destruct Hd as [-> | Hd]; [reflexivity|]). subst d. reflexivity.
Qed.

Lemma mod_16_lt v : v mod 16 < 16.
Proof. apply N.mod_lt. discriminate. Qed.

Lemma read_in_hex_step quote k value items acc c r d :
  hex_value c = Some d ->
  read_literal (In_hex quote (S (S k)) value) items acc (c :: r)
  = read_literal (In_hex quote (S k) (16 * value + d)) items acc r.
Proof. intros H. cbn [read_literal]. now rewrite H. Qed.

Lemma read_in_hex_last quote value items acc c r d :
  hex_value c = Some d -> 16 * value + d <= 0x10FFFF ->
  read_literal (In_hex quote 1 value) items acc (c :: r)
  = read_literal (In_text quote) items (acc ++ [16 * value + d]) r.
Proof.
  intros H Hle. cbn [read_literal]. rewrite H.
  apply N.leb_le in Hle. now rewrite Hle.
Qed.

(** Reading the digits written by [hex_digits]. *)
Lemma read_hex_digits quote items acc rest v n : forall value,
  value * 16 ^ N.of_nat (S n) + v mod 16 ^ N.of_nat (S n) <= 0x10FFFF ->
  read_literal (In_hex quote (S n) value) items acc (hex_digits (S n) v ++ rest)
  = read_literal (In_text quote) items
      (acc ++ [value * 16 ^ N.of_nat (S n) + v mod 16 ^ N.of_nat (S n)]) rest.
Proof.
  induction n as [|n IH]; intros value Hle.
  - change (hex_digits 1 v ++ rest) with (hex_digit ((v / 1) mod 16) :: rest).
    rewrite N.div_1_r. change (16 ^ N.of_nat 1) with 16 in *.
    rewrite (read_in_hex_last _ _ _ _ _ _ (v mod 16)).
    + do 3 f_equal. lia.
    + apply hex_value_digit, mod_16_lt.
    + lia.
  - change (hex_digits (S (S n)) v ++ rest)
      with (hex_digit ((v / 16 ^ N.of_nat (S n)) mod 16)
            :: (hex_digits (S n) v ++ rest)).
    assert (Hpow : 16 ^ N.of_nat (S (S n)) = 16 ^ N.of_nat (S n) * 16).
    { rewrite (Nat2N.inj_succ (S n)), N.pow_succ_r'. lia. }
    assert (Hmod : v mod 16 ^ N.of_nat (S (S n))
                   = v mod 16 ^ N.of_nat (S n)
                     + 16 ^ N.of_nat (S n) * ((v / 16 ^ N.of_nat (S n)) mod 16)).
    { rewrite Hpow. apply N.Div0.mod_mul_r. }
    rewrite (read_in_hex_step _ _ _ _ _ _ _ ((v / 16 ^ N.of_nat (S n)) mod 16))
      by apply hex_value_digit, mod_16_lt.
    rewrite IH.
    + do 3 f_equal. rewrite Hmod, Hpow. lia.
    + rewrite Hmod, Hpow in Hle. lia.
Qed.

Lemma read_hex_digits_0 quote items acc rest v n :
  v < 16 ^ N.of_nat (S n) -> v <= 0x10FFFF ->
  read_literal (In_hex quote (S n) 0) items acc (hex_digits (S n) v ++ rest)
  = read_literal (In_text quote) items (acc ++ [v]) rest.
Proof.
  intros Hlt Hle. rewrite read_hex_digits; rewrite N.mod_small by exact Hlt.
  - reflexivity.
  - lia.
Qed.

Lemma repr_quote_is_quote s : is_quote (repr_quote s).
Proof.
  unfold repr_quote, is_quote.
  destruct (contains QUOTE s && negb (contains DQUOTE s)); auto.
Qed.

(** Reading back a character written by [repr]. *)
Lemma read_repr_char isprintable quote c items acc rest :
  is_quote quote -> code_point c ->
  read_literal (In_text quote) items acc (repr_char isprintable quote c ++ rest)
  = read_literal (In_text quote) items (acc ++ [c]) rest.
Proof.
  unfold is_quote, code_point, QUOTE, DQUOTE. intros Hq Hc.
  unfold repr_char, BACKSLASH, TAB, NL, CR.
  destruct (N.eqb_spec c quote) as [->|Hcq].
  { destruct Hq as [-> | ->]; reflexivity. }
  destruct (N.eqb_spec c 92) as [->|Hb].
  { destruct Hq as [-> | ->]; reflexivity. }
  destruct (N.eqb_spec c 9) as [->|Ht].
  { destruct Hq as [-> | ->]; reflexivity. }
  destruct (N.eqb_spec c 10) as [->|Hn].
  { destruct Hq as [-> | ->]; reflexivity. }
  destruct (N.eqb_spec c 13) as [->|Hr].
  { destruct Hq as [-> | ->]; reflexivity. }
  cbn [orb].
  assert (Hverbatim : 32 <= c ->
    read_literal (In_text quote) items acc ([c] ++ rest)
    = read_literal (In_text quote) items (acc ++ [c]) rest).
  { intros H32. cbn [app read_literal]. unfold BACKSLASH, NL, CR.
    destruct (N.eqb_spec c quote); [contradiction|].
    destruct (N.eqb_spec c 92); [contradiction|].
    destruct (N.eqb_spec c 10); [contradiction|].
    destruct (N.eqb_spec c 13); [contradiction|]. reflexivity. }
  assert (Hx : c < 256 ->
    read_literal (In_text quote) items acc
      ((92 :: of_string "x" ++ hex_digits 2 c) ++ rest)
    = read_literal (In_text quote) items (acc ++ [c]) rest).
  { intros H.
    etransitivity; [|exact (read_hex_digits_0 quote items acc rest c 1 H Hc)].
    destruct Hq as [-> | ->]; reflexivity. }
  assert (Hu : c < 65536 ->
    read_literal (In_text quote) items acc
      ((92 :: of_string "u" ++ hex_digits 4 c) ++ rest)
    = read_literal (In_text quote) items (acc ++ [c]) rest).
  { intros H.
    etransitivity; [|exact (read_hex_digits_0 quote items acc rest c 3 H Hc)].
    destruct Hq as [-> | ->]; reflexivity. }
  assert (HU :
    read_literal (In_text quote) items acc
      ((92 :: of_string "U" ++ hex_digits 8 c) ++ rest)
    = read_literal (In_text quote) items (acc ++ [c]) rest).
  { assert (H : c < 16 ^ N.of_nat 8) by (simpl; lia).
    etransitivity; [|exact (read_hex_digits_0 quote items acc rest c 7 H Hc)].
    destruct Hq as [-> | ->]; reflexivity. }
  destruct (N.ltb_spec c 32); cbn [orb]; [apply Hx; lia|].
  destruct (N.eqb_spec c 127); [apply Hx; lia|].
  destruct (N.ltb_spec c 127); [apply Hverbatim; lia|].
  destruct (isprintable c); [apply Hverbatim; lia|].
  destruct (N.leb_spec c 255); [apply Hx; lia|].
  destruct (N.leb_spec c 65535); [apply Hu; lia|].
  apply HU.
Qed.

(** What [repr] writes for a character does not start with the quote. *)
Lemma repr_char_head isprintable quote c :
  is_quote quote ->
  exists x xs, repr_char isprintable quote c = x :: xs /\ x <> quote.
Proof.
  unfold is_quote, QUOTE, DQUOTE. intros Hq.
  unfold repr_char, BACKSLASH, TAB, NL, CR.
  assert (Hb : 92 <> quote) by (destruct Hq; subst; discriminate).
  destruct (N.eqb_spec c quote) as [->|Hcq]; cbn [orb].
  { now exists 92, [quote]. }
  destruct (c =? 92); [now exists 92, [c]|].
  destruct (c =? 9); [now eexists _, _|].
  destruct (c =? 10); [now eexists _, _|].
  destruct (c =? 13); [now eexists _, _|].
  destruct ((c <? 32) || (c =? 127)); [now eexists _, _|].
  destruct (c <? 127); [now exists c, []|].
  destruct (isprintable c); [now exists c, []|].
  destruct (c <=? 255); [now eexists _, _|].
  destruct (c <=? 65535); now eexists _, _.
Qed.

Lemma read_repr_body isprintable quote items rest item : forall acc,
  is_quote quote -> Forall code_point item ->
  read_literal (In_text quote) items acc
    (flat_map (repr_char isprintable quote) item ++ rest)
  = read_literal (In_text quote) items (acc ++ item) rest.
Proof.
  induction item as [|c item IH]; intros acc Hq Hi.
  - simpl. now rewrite app_nil_r.
  - inversion Hi; subst. cbn [flat_map]. rewrite <- app_assoc.
    rewrite read_repr_char by assumption. rewrite IH by assumption.
    now rewrite <- app_assoc.
Qed.

Lemma read_open_quote quote items r :
  is_quote quote ->
  (forall c1 c2 r', r = c1 :: c2 :: r' -> c1 <> quote \/ c2 <> quote) ->
  read_literal Before_item items [] (quote :: r)
  = read_literal (In_text quote) items [] r.
Proof.
  intros Hq Hr.
  assert (E : read_literal Before_item items [] (quote :: r)
              = match r with
                | c1 :: c2 :: _ =>
                    if (c1 =? quote) && (c2 =? quote) then None
                    else read_literal (In_text quote) items [] r
                | _ => read_literal (In_text quote) items [] r
                end).
  { destruct Hq as [-> | ->]; reflexivity. }
  rewrite E. destruct r as [|c1 [|c2 r']]; try reflexivity.
  destruct (Hr c1 c2 r' eq_refl) as [H|H].
  - destruct (N.eqb_spec c1 quote); [contradiction|reflexivity].
  - destruct (N.eqb_spec c2 quote); [contradiction|].
    now rewrite andb_false_r.
Qed.

Lemma read_close_quote quote items acc r :
  read_literal (In_text quote) items acc (quote :: r)
  = read_literal After_item (items ++ [acc]) [] r.
Proof. simpl. now rewrite N.eqb_refl. Qed.

(** Reading back one line of the file. *)
Lemma read_line isprintable items item rest :
  Forall code_point item ->
  read_literal Before_item items []
    ((of_string "    " ++ repr isprintable item ++ [COMMA; NL]) ++ rest)
  = read_literal Before_item (items ++ [item]) [] rest.
Proof.
  intros Hi. pose proof (repr_quote_is_quote item) as Hq.
  assert (Hskip : forall r,
    read_literal Before_item items [] (of_string "    " ++ r)
    = read_literal Before_item items [] r) by reflexivity.
  rewrite <- app_assoc, Hskip.
  unfold repr. set (quote := repr_quote item) in *.
  assert (E : ((quote :: flat_map (repr_char isprintable quote) item ++ [quote])
               ++ [COMMA; NL]) ++ rest
              = quote :: (flat_map (repr_char isprintable quote) item
                          ++ quote :: COMMA :: NL :: rest)).
  { cbn [app]. f_equal. now rewrite <- !app_assoc. }
  rewrite E. clear E.
  rewrite read_open_quote; [|exact Hq|].
  - rewrite read_repr_body by assumption. rewrite read_close_quote.
    reflexivity.
  - intros c1 c2 r' E. destruct item as [|c item].
    + simpl in E. injection E as <- <- _. right.
      destruct Hq as [Hq | Hq]; rewrite Hq; discriminate.
    + cbn [flat_map] in E.
      destruct (repr_char_head isprintable quote c Hq) as (x & xs & Hx & Hne).
      rewrite Hx in E. simpl in E. injection E as <- _. now left.
Qed.

(** ** Writing the file *)

(** The texts handed to [file.write], one after the other. *)
Lemma save_list_to_file_writes isprintable encodable l :
  save_list_to_file isprintable encodable l
  = fold_left (file_write encodable)
      ([LBRACKET; NL]
       :: map (fun item => of_string "    " ++ repr isprintable item ++ [COMMA; NL]) l
       ++ [[RBRACKET; NL]])
      {| written := []; raised := None |}.
Proof.
  unfold save_list_to_file. cbn [fold_left]. rewrite fold_left_app. cbn [fold_left].
  f_equal. generalize (file_write encodable {| written := []; raised := None |}
                         [LBRACKET; NL]).
  induction l as [|item l IH]; intros file; [reflexivity|].
  cbn [fold_left map]. apply IH.
Qed.

Lemma file_write_raised encodable file s e :
  raised file = Some e -> file_write encodable file s = file.
Proof. intros H. unfold file_write. now rewrite H. Qed.

Lemma file_write_open encodable file s :
  raised file = None ->
  file_write encodable file s
  = if forallb encodable s
    then {| written := written file ++ s; raised := None |}
    else {| written := written file;
            raised := Some "UnicodeEncodeError"%string |}.
Proof. intros H. unfold file_write. now rewrite H. Qed.

Lemma writes_after_raise encodable pieces : forall file e,
  raised file = Some e -> fold_left (file_write encodable) pieces file = file.
Proof.
  induction pieces as [|s pieces IH]; intros file e H; [reflexivity|].
  cbn [fold_left]. rewrite (file_write_raised _ _ _ _ H). now apply (IH _ e).
Qed.

(** The file holds the first writes whole, and all of them when no write
    raised. *)
Lemma writes_whole encodable pieces : forall file,
  raised file = None ->
  exists k,
    (k <= length pieces)%nat
    /\ written (fold_left (file_write encodable) pieces file)
       = written file ++ concat (firstn k pieces)
    /\ (raised (fold_left (file_write encodable) pieces file) = None
        -> k = length pieces).
Proof.
  induction pieces as [|s pieces IH]; intros file Hf.
  - exists 0%nat. simpl. rewrite app_nil_r. repeat split; auto.
  - cbn [fold_left]. rewrite (file_write_open _ _ _ Hf).
    destruct (forallb encodable s).
    + destruct (IH {| written := written file ++ s; raised := None |} eq_refl)
        as (k & Hk & Hw & Hr).
      exists (S k). cbn [length firstn concat written] in *.
      split; [lia|]. split; [now rewrite Hw, <- app_assoc|].
      intros H. now rewrite (Hr H).
    + rewrite (writes_after_raise _ _ _ "UnicodeEncodeError"%string) by reflexivity.
      exists 0%nat. cbn [written raised firstn concat length].
      rewrite app_nil_r. split; [lia|]. split; [reflexivity|discriminate].
Qed.

Lemma writes_complete encodable pieces : forall file,
  raised file = None ->
  Forall (fun s => forallb encodable s = true) pieces ->
  fold_left (file_write encodable) pieces file
  = {| written := written file ++ concat pieces; raised := None |}.
Proof.
  induction pieces as [|s pieces IH]; intros file Hf Hp.
  - simpl. rewrite app_nil_r. destruct file; simpl in *. now subst.
  - inversion Hp as [|? ? Hs Hps]; subst. cbn [fold_left].
    rewrite (file_write_open _ _ _ Hf), Hs. rewrite IH by auto.
    cbn [written concat]. now rewrite <- app_assoc.
Qed.

Lemma concat_map_flat_map {A B} (f : A -> list B) l :
  concat (map f l) = flat_map f l.
Proof. induction l as [|x l IH]; [reflexivity|]. simpl. now rewrite IH. Qed.

(** When every write goes through, the file holds them all. *)
Lemma save_list_to_file_complete isprintable encodable l :
  forallb encodable [LBRACKET; NL] = true ->
  forallb encodable [RBRACKET; NL] = true ->
  Forall (fun item => forallb encodable
            (of_string "    " ++ repr isprintable item ++ [COMMA; NL]) = true) l ->
  save_list_to_file isprintable encodable l
  = {| written :=
         [LBRACKET; NL]
         ++ flat_map (fun item => of_string "    " ++ repr isprintable item
                                  ++ [COMMA; NL]) l
         ++ [RBRACKET; NL];
       raised := None |}.
Proof.
  intros H1 H2 Hl. rewrite save_list_to_file_writes.
  rewrite writes_complete; [|reflexivity|].
  - cbn [written app concat]. rewrite concat_app, concat_map_flat_map.
    cbn [concat]. now rewrite app_nil_r.
  - constructor; [exact H1|]. apply Forall_app. split.
    + apply Forall_map. exact Hl.
    + now repeat constructor.
Qed.

(** What [repr] writes for a character is ASCII, or the character itself
    when it is printable. *)
Lemma repr_char_chars isprintable quote c :
  is_quote quote ->
  Forall (fun x => x < 0x80 \/ (x = c /\ isprintable c = true))
         (repr_char isprintable quote c).
Proof.
  unfold is_quote, QUOTE, DQUOTE. intros Hq.
  assert (Hqa : quote < 0x80) by (destruct Hq; subst; reflexivity).
  assert (Hhex : forall n, Forall (fun x => x < 0x80 \/ (x = c /\ isprintable c = true))
                             (hex_digits n c)).
  { intros n. induction n as [|n IH]; [constructor|].
    simpl. constructor; [|exact IH]. left. unfold hex_digit.
    pose proof (mod_16_lt (c / 16 ^ N.of_nat n)).
    destruct (N.ltb_spec ((c / 16 ^ N.of_nat n) mod 16) 10); lia. }
  assert (Hesc : forall x n, x < 0x80 ->
            Forall (fun x => x < 0x80 \/ (x = c /\ isprintable c = true))
                   (92 :: [x] ++ hex_digits n c)).
  { intros x n Hx. constructor; [left; reflexivity|].
    constructor; [now left|apply Hhex]. }
  assert (Htwo : forall x y, x < 0x80 -> y < 0x80 ->
            Forall (fun x => x < 0x80 \/ (x = c /\ isprintable c = true)) [x; y]).
  { intros x y Hx Hy. constructor; [now left|]. constructor; [now left|constructor]. }
  unfold repr_char, BACKSLASH, TAB, NL, CR.
  destruct (N.eqb_spec c quote) as [Hcq|Hcq]; cbn [orb].
  { apply Htwo; [reflexivity|now rewrite Hcq]. }
  destruct (N.eqb_spec c 92) as [Hb|Hb]; [apply Htwo; [reflexivity|now rewrite Hb]|].
  destruct (c =? 9); [apply Htwo; reflexivity|].
  destruct (c =? 10); [apply Htwo; reflexivity|].
  destruct (c =? 13); [apply Htwo; reflexivity|].
  destruct ((c <? 32) || (c =? 127)); [apply (Hesc 120 2%nat); reflexivity|].
  destruct (N.ltb_spec c 127); [constructor; [left; lia|constructor]|].
  destruct (isprintable c) eqn:Ep;
    [constructor; [right; split; reflexivity|constructor]|].
  destruct (c <=? 255); [apply (Hesc 120 2%nat); reflexivity|].
  destruct (c <=? 65535);
    [apply (Hesc 117 4%nat); reflexivity|apply (Hesc 85 8%nat); reflexivity].
Qed.

Lemma item_line_encodable isprintable encodable item :
  (forall c, c < 0x80 -> encodable c = true) ->
  Forall (fun c => isprintable c = true -> encodable c = true) item ->
  forallb encodable (of_string "    " ++ repr isprintable item ++ [COMMA; NL])
  = true.
Proof.
  intros Ha Hi. apply forallb_forall. intros x Hx.
  apply in_app_or in Hx. destruct Hx as [Hx|Hx].
  { apply Ha. simpl in Hx.
    repeat (destruct Hx as [<-|Hx]; [reflexivity|]). contradiction. }
  apply in_app_or in Hx. destruct Hx as [Hx|Hx].
  2:{ apply Ha. simpl in Hx.
      repeat (destruct Hx as [<-|Hx]; [reflexivity|]). contradiction. }
  pose proof (repr_quote_is_quote item) as Hq.
  assert (Hqa : repr_quote item < 0x80)
    by (destruct Hq as [-> | ->]; reflexivity).
  unfold repr in Hx. destruct Hx as [<-|Hx]; [now apply Ha|].
  apply in_app_or in Hx. destruct Hx as [Hx|[<-|[]]]; [|now apply Ha].
  apply in_flat_map in Hx. destruct Hx as (c & Hc & Hx).
  pose proof (repr_char_chars isprintable (repr_quote item) c Hq) as Hall.
  rewrite Forall_forall in Hall, Hi.
  destruct (Hall x Hx) as [Hlt|[-> Hp]]; [now apply Ha|].
  now apply Hi.
Qed.

Lemma save_list_to_file_fits isprintable encodable l :
  encoding_fits isprintable encodable l ->
  save_list_to_file isprintable encodable l
  = {| written :=
         [LBRACKET; NL]
         ++ flat_map (fun item => of_string "    " ++ repr isprintable item
                                  ++ [COMMA; NL]) l
         ++ [RBRACKET; NL];
       raised := None |}.
Proof.
  intros [Ha Hl]. apply save_list_to_file_complete.
  - simpl. rewrite !Ha by reflexivity. reflexivity.
  - simpl. rewrite !Ha by reflexivity. reflexivity.
  - revert Hl. apply Forall_impl. intros item Hi.
    now apply item_line_encodable.
Qed.

(** ** Reading it back *)

Lemma read_lines isprintable l : forall items rest,
  Forall (Forall code_point) l ->
  read_literal Before_item items []
    (flat_map (fun item => of_string "    " ++ repr isprintable item ++ [COMMA; NL]) l
     ++ rest)
  = read_literal Before_item (items ++ l) [] rest.
Proof.
  induction l as [|item l IH]; intros items rest Hl.
  - simpl. now rewrite app_nil_r.
  - inversion Hl; subst. cbn [flat_map]. rewrite <- app_assoc.
    rewrite read_line by assumption. rewrite IH by assumption.
    now rewrite <- app_assoc.
Qed.

Lemma saved_list_reads_back isprintable encodable data_list :
  Forall (Forall code_point) data_list ->
  encoding_fits isprintable encodable data_list ->
  raised (save_list_to_file isprintable encodable data_list) = None
  /\ parse_list_literal
       (written (save_list_to_file isprintable encodable data_list))
     = Some data_list.
Proof.
  intros Hl Hfit. rewrite (save_list_to_file_fits _ _ _ Hfit).
  cbn [written raised]. split; [reflexivity|]. unfold parse_list_literal.
  change (read_literal Before_item [] []
            (flat_map (fun item => of_string "    " ++ repr isprintable item ++ [COMMA; NL])
                      data_list ++ [RBRACKET; NL]) = Some data_list).
  rewrite read_lines by assumption. reflexivity.
Qed.




Lemma utf8_holds_ascii c : c < 0x80 -> utf8_encoding c = true.
Proof.
  intros H. unfold utf8_encoding.
  apply andb_true_iff. split; [apply N.leb_le; lia|].
  apply negb_true_iff, andb_false_iff. left. apply N.leb_gt. lia.
Qed.

(** UTF-8 fits every list of strings made of code points, as no
    surrogate is printable. *)
Lemma utf8_fits isprintable l :
  (forall c, 0xD800 <= c <= 0xDFFF -> isprintable c = false) ->
  Forall (Forall code_point) l ->
  encoding_fits isprintable utf8_encoding l.
Proof.
  intros Hs Hl. split; [apply utf8_holds_ascii|].
  revert Hl. apply Forall_impl. intros item. apply Forall_impl.
  unfold code_point, utf8_encoding. intros c Hc Hp.
  apply andb_true_iff. split; [now apply N.leb_le|].
  apply negb_true_iff, andb_false_iff.
  destruct (N.leb_spec 0xD800 c) as [H1|H1]; [|now left].
  destruct (N.leb_spec c 0xDFFF) as [H2|H2]; [|now right].
  rewrite Hs in Hp by lia. discriminate.
Qed.



(* ================================================================== *)
(** * More on the fetcher *)
(* ================================================================== *)

(** X1: when the three requests all raise, [fetch_url] raises the
    exception of the third, after a warning and a sleep of three seconds
    for each of the first two. *)
Theorem fetch_url_exhausted (net : nat -> get_result) (e1 e2 e3 : exn) :
  net 1%nat = Get_raises e1 -> net 2%nat = Get_raises e2 ->
  net 3%nat = Get_raises e3 ->
  fetch_url net
  = (Raised e3,
     [Warning_retrying 1 e1; Sleep 3; Warning_retrying 2 e2; Sleep 3]).
Proof.
  intros H1 H2 H3. unfold fetch_url. simpl. now rewrite H1, H2, H3.
Qed.

Lemma fetch_url_exhausted_witness :
  fetch_url net_always_down
  = (Raised "ConnectionError"%string,
     [Warning_retrying 1 "ConnectionError"%string; Sleep 3;
      Warning_retrying 2 "ConnectionError"%string; Sleep 3]).
Proof.
  apply (fetch_url_exhausted net_always_down); reflexivity.
Defined.

(** X2: [fetch_url] makes at most three requests: what it returns and
    logs is the same for two networks that agree on the first three. *)
Theorem fetch_url_three_requests (net net' : nat -> get_result) :
  (forall n, (1 <= n <= 3)%nat -> net n = net' n) ->
  fetch_url net = fetch_url net'.
Proof.
  intros H. unfold fetch_url. simpl.
  rewrite <- (H 1%nat), <- (H 2%nat), <- (H 3%nat) by lia. reflexivity.
Qed.

Lemma fetch_url_three_requests_witness :
  fetch_url net_two_failures
  = fetch_url (fun n => if (n <=? 3)%nat then net_two_failures n
                        else Get_response page_503).
Proof.
  apply fetch_url_three_requests. intros n Hn.
  destruct n as [|[|[|[|n]]]]; try lia; reflexivity.
Defined.

(** X3: the events of a fetch are a warning followed by a sleep of three
    seconds for each failed request that is retried; there are at most
    two of them, numbered from one, so that a fetch sleeps six seconds at
    most. *)
Theorem fetch_url_events (net : nat -> get_result) :
  exists fails : list exn,
    (length fails <= 2)%nat
    /\ snd (fetch_url net)
       = flat_map (fun ne => [Warning_retrying (fst ne) (snd ne); Sleep 3])
                  (combine (seq 1 (length fails)) fails)
    /\ Forall2 (fun n e => net n = Get_raises e) (seq 1 (length fails)) fails
    /\ seconds_slept (snd (fetch_url net)) = (3 * length fails)%nat.
Proof.
  unfold fetch_url. simpl.
  destruct (net 1%nat) as [rep1|e1] eqn:E1; simpl.
  - exists []. repeat split; try constructor. simpl. lia.
  - destruct (net 2%nat) as [rep2|e2] eqn:E2; simpl.
    + exists [e1]. repeat split; simpl; try lia. repeat constructor. exact E1.
    + exists [e1; e2].
      assert (F : Forall2 (fun n e => net n = Get_raises e)
                    (seq 1 (length [e1; e2])) [e1; e2])
        by (repeat constructor; assumption).
      destruct (net 3%nat) as [rep3|e3]; simpl; repeat split; auto.
Qed.

(* ================================================================== *)
(** * More on the URL discoverer *)
(* ================================================================== *)

Lemma collect_urls_links base tree :
  fst (collect_urls base tree)
  = flat_map (fun l1 => flat_map (entry_link base) (entries l1)) tree.
Proof.
  unfold collect_urls.
  pose proof (sections_loop_links base tree []
                [Info_found_sections (length tree)]) as H.
  destruct (fold_left _ _ _) as [urls log]. exact H.
Qed.

Lemma section_urls_step_log base urls log l1 :
  snd (section_urls_step base (urls, log) l1) = log.
Proof.
  unfold section_urls_step.
  destruct (fold_left (entry_step base) (entries l1) (urls, 0%nat)) as [urls' count].
  cbn [snd logged below_info]. now rewrite app_nil_r.
Qed.

Lemma sections_loop_log base tree : forall urls log,
  snd (fold_left (section_urls_step base) tree (urls, log)) = log.
Proof.
  induction tree as [|l1 tree IH]; intros urls log; cbn [fold_left]; [reflexivity|].
  pose proof (section_urls_step_log base urls log l1) as H.
  destruct (section_urls_step base (urls, log) l1) as [urls' log'].
  cbn [snd] in H. subst log'. apply IH.
Qed.

(** X4: the log of the discoverer has two records: the number of
    sections of the tree, and the number of URLs returned; the counts of
    the sections, recorded below the level of the logger, are not in
    it. *)
Theorem collect_urls_log (base_url : str) (tree : list nav_section) :
  snd (collect_urls base_url tree)
  = [Info_found_sections (length tree);
     Info_found_total (length (fst (collect_urls base_url tree)))].
Proof.
  unfold collect_urls.
  pose proof (sections_loop_log base_url tree []
                [Info_found_sections (length tree)]) as H.
  destruct (fold_left _ _ _) as [urls log]. cbn [fst snd] in *.
  now rewrite H.
Qed.

(** X5: every URL returned is [base_url] followed by a non-empty path,
    and no more URLs are returned than the tree has entries. *)
Theorem collect_urls_absolute (base_url : str) (tree : list nav_section) :
  Forall (fun url => exists c path, url = base_url ++ c :: path)
         (fst (collect_urls base_url tree))
  /\ (length (fst (collect_urls base_url tree))
      <= length (flat_map entries tree))%nat.
Proof.
  rewrite collect_urls_links. split.
  - apply Forall_flat_map. apply Forall_forall. intros l1 _.
    apply Forall_flat_map. apply Forall_forall. intros i _.
    unfold entry_link. destruct (url_field i) as [[|[|c u]]|]; repeat constructor.
    now exists c, u.
  - induction tree as [|l1 tree IH]; [simpl; lia|].
    cbn [flat_map]. rewrite !length_app.
    assert (H : (length (flat_map (entry_link base_url) (entries l1))
                 <= length (entries l1))%nat).
    { induction (entries l1) as [|i l IHl]; [simpl; lia|].
      cbn [flat_map]. rewrite length_app. simpl length.
      unfold entry_link at 1. destruct (url_field i) as [[|[|c u]]|]; simpl; lia. }
    lia.
Qed.

(* ================================================================== *)
(** * [get_help_docs_urls] under [@retry] *)
(* ================================================================== *)


Lemma retry_call_raised {A} (call : nat -> outcome A * list event) more n e evs :
  call n = (Raised e, evs) ->
  retry_call call (S more) n
  = (fst (retry_call call more (S n)),
     evs ++ Warning_retrying n e :: Sleep 3 :: snd (retry_call call more (S n))).
Proof.
  intros H. simpl. rewrite H. now destruct (retry_call call more (S n)).
Qed.

(** [fetch_url] is this very retry around its body, which leaves no
    event of its own. *)
Lemma fetch_url_is_retry_call (net : nat -> get_result) :
  fetch_url net = retry_call (fun n => (fetch_url_body (net n), [])) 2 1.
Proof.
  unfold fetch_url. simpl.
  destruct (fetch_url_body (net 1%nat)); [reflexivity|].
  destruct (fetch_url_body (net 2%nat)); [reflexivity|].
  destruct (fetch_url_body (net 3%nat)); reflexivity.
Qed.

Lemma entries_loop_typed str_of_value base (l : list nav_entry) :
  forall urls count,
    entries_loop str_of_value base (map json_of_entry l) urls count
    = Returned (fold_left (entry_step base) l (urls, count)).
Proof.
  induction l as [|i l IH]; intros urls count; [reflexivity|].
  destruct i as [[[|[|c s]]|]]; cbn [map fold_left]; apply IH.
Qed.


Lemma urls_of_page_data str_of_value base (help_article_tree : json) :
  urls_of_json_data str_of_value base (page_data help_article_tree)
  = match py_len help_article_tree with
    | Raised e => (Raised e, [])
    | Returned n =>
        match py_iter help_article_tree with
        | Raised e => (Raised e, [Info_found_sections n])
        | Returned sections =>
            match sections_loop str_of_value base sections [] with
            | Raised e => (Raised e, [Info_found_sections n])
            | Returned urls =>
                (Returned urls,
                 [Info_found_sections n; Info_found_total (length urls)])
            end
        end
    end.
Proof. reflexivity. Qed.




Lemma discovery_body_read (index_web : nat -> nat -> get_result)
    (load_next_data : str -> outcome json) (str_of_value : json -> str)
    (n : nat) (rep : response) :
  index_web n 1%nat = Get_response rep ->
  get_help_docs_urls_body index_web load_next_data str_of_value n
  = match load_next_data (text rep) with
    | Raised e => (Raised e, [])
    | Returned json_data =>
        urls_of_json_data str_of_value notion_base_url json_data
    end.
Proof.
  intros Hrep. unfold get_help_docs_urls_body, fetch_url.
  rewrite (retrying_response _ _ _ _ (text rep)) by (now rewrite Hrep).
  destruct (load_next_data (text rep)) as [json_data|e]; [|reflexivity].
  now destruct (urls_of_json_data str_of_value notion_base_url json_data).
Qed.



(** A section that has no ["entries"] stops the discovery with a
    [TypeError], whatever the sections around it hold, once the number of
    sections is logged. *)
Lemma section_without_entries_raises str_of_value base
    (pre : list nav_section) (members : list (str * json)) (post : list json) :
  dict_lookup (of_string "entries") members = None ->
  urls_of_json_data str_of_value base
    (page_data (J_array (map json_of_section pre ++ J_object members :: post)))
  = (Raised "TypeError"%string,
     [Info_found_sections (length pre + 1 + length post)]).
Proof.
  intros Hm. rewrite urls_of_page_data. cbn [py_len py_iter].
  rewrite length_app, length_map. cbn [length].
  replace (length pre + S (length post))%nat
    with (length pre + 1 + length post)%nat by lia.
  assert (H : forall urls,
             sections_loop str_of_value base
               (map json_of_section pre ++ J_object members :: post) urls
             = Raised "TypeError"%string).
  { induction pre as [|l1 pre IH]; intros urls.
    - cbn [map app sections_loop py_get]. now rewrite Hm.
    - cbn [map app].
      change (sections_loop str_of_value base
                (json_of_section l1 :: map json_of_section pre
                                       ++ J_object members :: post) urls)
        with (match entries_loop str_of_value base
                      (map json_of_entry (entries l1)) urls 0 with
              | Raised e => Raised e
              | Returned (urls, count) =>
                  sections_loop str_of_value base
                    (map json_of_section pre ++ J_object members :: post) urls
              end).
      rewrite entries_loop_typed.
      destruct (fold_left (entry_step base) (entries l1) (urls, 0%nat)).
      apply IH. }
  now rewrite H.
Qed.

(** X29: when the page is fetched and read at each attempt but lines 81
    to 97 raise on its data, every attempt leaves its records in the log
    before it is retried: the discovery raises after three attempts, and
    what one attempt logs is in the log three times.  So a tree with a
    section without ["entries"] gives, three times, the number of
    sections, and no URL. *)
Theorem discovery_data_raises (index_web : nat -> nat -> get_result)
    (load_next_data : str -> outcome json) (str_of_value : json -> str)
    (json_data : json) (e : exn) (log : list event) :
  (forall n, exists rep, index_web n 1%nat = Get_response rep
                         /\ load_next_data (text rep) = Returned json_data) ->
  urls_of_json_data str_of_value notion_base_url json_data = (Raised e, log) ->
  get_help_docs_urls_retried index_web load_next_data str_of_value
  = (Raised e,
     log ++ [Warning_retrying 1 e; Sleep 3]
     ++ log ++ [Warning_retrying 2 e; Sleep 3] ++ log).
Proof.
  intros Hw Hd. unfold get_help_docs_urls_retried.
  assert (Hb : forall n,
             get_help_docs_urls_body index_web load_next_data str_of_value n
             = (Raised e, log)).
  { intros n. destruct (Hw n) as [rep [Hrep Hload]].
    rewrite (discovery_body_read _ _ _ _ _ Hrep). now rewrite Hload. }
  simpl. rewrite !Hb. reflexivity.
Qed.

Lemma discovery_data_raises_witness :
  get_help_docs_urls_retried
    (fun _ _ => Get_response page_503)
    (fun _ => Returned (page_data (J_array [section_without_entries])))
    (fun _ => [])
  = (Raised "TypeError"%string,
     [Info_found_sections 1; Warning_retrying 1 "TypeError"%string; Sleep 3;
      Info_found_sections 1; Warning_retrying 2 "TypeError"%string; Sleep 3;
      Info_found_sections 1]).
Proof.
  apply (discovery_data_raises (fun _ _ => Get_response page_503)
           (fun _ => Returned (page_data (J_array [section_without_entries])))
           (fun _ => []) (page_data (J_array [section_without_entries]))
           "TypeError"%string [Info_found_sections 1]).
  - intros n. now exists page_503.
  - exact (section_without_entries_raises (fun _ => []) notion_base_url []
             [(of_string "title", J_string (of_string "Guides"))] []
             eq_refl).
Defined.


(* ================================================================== *)
(** * More on the post-processing of the extracted content *)
(* ================================================================== *)

Lemma lines_nl_line l : forall cur s,
  Forall (fun c => is_nl c = false) l ->
  lines_nl cur (l ++ s) = lines_nl (cur ++ l) s.
Proof.
  induction l as [|c l IH]; intros cur s H; simpl.
  - now rewrite app_nil_r.
  - inversion H as [|? ? Hc Hl]; subst. rewrite Hc.
    rewrite IH by exact Hl. now rewrite <- app_assoc.
Qed.

Lemma lines_nl_join L :
  L <> [] -> Forall (Forall (fun c => is_nl c = false)) L ->
  lines_nl [] (join_nl L) = L.
Proof.
  induction L as [|l rest IH]; intros Hne H; [congruence|].
  inversion H as [|? ? Hl Hrest]; subst. destruct rest as [|l2 rest].
  - simpl. rewrite <- (app_nil_r l) at 1. now rewrite lines_nl_line.
  - change (join_nl (l :: l2 :: rest)) with (l ++ NL :: join_nl (l2 :: rest)).
    rewrite lines_nl_line by exact Hl. simpl. f_equal.
    apply IH; [discriminate|exact Hrest].
Qed.

Lemma lines_nl_nlfree s : forall cur,
  Forall (fun c => is_nl c = false) cur ->
  Forall (Forall (fun c => is_nl c = false)) (lines_nl cur s).
Proof.
  induction s as [|c r IH]; intros cur Hcur; simpl.
  - now repeat constructor.
  - destruct (is_nl c) eqn:E.
    + constructor; [exact Hcur|]. apply IH. constructor.
    + apply IH. apply Forall_app. split; [exact Hcur|now repeat constructor].
Qed.

Lemma lines_nl_chars (P : char -> Prop) s : forall cur,
  Forall P cur -> Forall P s -> Forall (Forall P) (lines_nl cur s).
Proof.
  induction s as [|c r IH]; intros cur Hcur Hs; simpl.
  - now repeat constructor.
  - inversion Hs; subst. destruct (is_nl c).
    + constructor; [exact Hcur|]. apply IH; [constructor|assumption].
    + apply IH; [|assumption]. apply Forall_app. split; [exact Hcur|now repeat constructor].
Qed.

Lemma lines_nl_not_nil s cur : lines_nl cur s <> [].
Proof.
  revert cur. induction s as [|c r IH]; intros cur; simpl; [discriminate|].
  destruct (is_nl c); [discriminate|apply IH].
Qed.

Lemma join_lines_nl s : forall cur,
  join_nl (lines_nl cur s) = cur ++ s.
Proof.
  induction s as [|c r IH]; intros cur; simpl.
  - now rewrite app_nil_r.
  - destruct (is_nl c) eqn:E.
    + apply is_nl_eq in E. subst c.
      rewrite join_nl_cons by apply lines_nl_not_nil. now rewrite IH.
    + rewrite IH. now rewrite <- app_assoc.
Qed.

Lemma no_triple_nl_tail c r : no_triple_nl (c :: r) = true -> no_triple_nl r = true.
Proof.
  destruct r as [|b [|d r]]; try reflexivity.
  simpl. intros H. apply andb_true_iff in H. tauto.
Qed.

Lemma no_triple_nl_cons c r :
  no_triple_nl r = true ->
  (is_nl c = false \/ (leading_newlines r <= 1)%nat) ->
  no_triple_nl (c :: r) = true.
Proof.
  intros Hr Hc. destruct r as [|b [|d r]]; try reflexivity.
  change (negb (is_nl c && is_nl b && is_nl d) && no_triple_nl (b :: d :: r) = true).
  rewrite Hr, andb_true_r. destruct Hc as [->|Hl]; [reflexivity|].
  simpl in Hl. destruct (is_nl b); [|now rewrite andb_false_r].
  destruct (is_nl d); [lia|now rewrite andb_false_r].
Qed.

Lemma no_triple_nl_leading s :
  no_triple_nl s = true -> (leading_newlines s <= 2)%nat.
Proof.
  destruct s as [|a [|b [|c r]]]; simpl; intros H.
  - lia.
  - destruct (is_nl a); lia.
  - destruct (is_nl a), (is_nl b); lia.
  - destruct (is_nl a), (is_nl b), (is_nl c); simpl in H; try discriminate; lia.
Qed.

(** After [re.sub] no three newlines are in a row. *)
Lemma sub_newlines_no_triple s : forall seen,
  no_triple_nl (sub_newlines seen s) = true
  /\ (leading_newlines (sub_newlines seen s) + Nat.min seen 2 <= 2)%nat.
Proof.
  induction s as [|c r IH]; intros seen.
  - simpl. split; [reflexivity|lia].
  - destruct (is_nl c) eqn:E.
    + pose proof E as Ec. apply is_nl_eq in Ec. subst c. rewrite sub_newlines_nl.
      destruct (Nat.ltb_spec seen 2).
      * destruct (IH (S seen)) as [H1 H2]. split.
        -- apply no_triple_nl_cons; [exact H1|right]. lia.
        -- simpl leading_newlines. change (is_nl NL) with true. cbv iota. lia.
      * destruct (IH seen) as [H1 H2]. split; [exact H1|exact H2].
    + rewrite sub_newlines_other by exact E. destruct (IH 0%nat) as [H1 _]. split.
      * apply no_triple_nl_cons; [exact H1|now left].
      * simpl. rewrite E. lia.
Qed.

(** A text without three newlines in a row is left as it is by [re.sub]. *)
Lemma sub_newlines_stable s : forall seen,
  no_triple_nl s = true -> (leading_newlines s + seen <= 2)%nat ->
  sub_newlines seen s = s.
Proof.
  induction s as [|c r IH]; intros seen Hn Hl; [reflexivity|].
  pose proof (no_triple_nl_tail _ _ Hn) as Hr.
  destruct (is_nl c) eqn:E.
  - pose proof E as Ec. apply is_nl_eq in Ec. subst c. rewrite sub_newlines_nl.
    simpl in Hl. change (is_nl NL) with true in Hl.
    destruct (Nat.ltb_spec seen 2); [|lia].
    f_equal. apply IH; [exact Hr|lia].
  - rewrite sub_newlines_other by exact E. f_equal.
    apply IH; [exact Hr|]. pose proof (no_triple_nl_leading r Hr). lia.
Qed.

(** The result of the post-processing, seen as lines. *)
Lemma normalize_lines s :
  exists L,
    Forall clean L
    /\ normalize_whitespace s = join_nl L
    /\ (L = [] -> splitlines s = []).
Proof.
  pose proof (stripped_lines_clean s) as Hclean.
  assert (E : normalize_whitespace s
              = sub_newlines 0 (join_nl (map strip (splitlines s)))) by reflexivity.
  rewrite E. clear E.
  destruct (splitlines s) as [|l0 L0]; [exists []; repeat split; constructor|].
  simpl map in *.
  assert (Hnl : Forall (Forall (fun c => is_nl c = false)) (strip l0 :: map strip L0)).
  { revert Hclean. apply Forall_impl. intros l [Hl _]. now apply lbfree_nlfree. }
  destruct (sub_newlines_join (strip l0 :: map strip L0) 0%nat
              ltac:(discriminate) Hnl) as (L' & Hn' & Hi & He).
  exists L'. split; [|split; [exact He|intros HL; contradiction]].
  rewrite Forall_forall in *. intros l Hl. apply Hclean, Hi, Hl.
Qed.

(** X8: the result of the post-processing is a normalized text: none of
    its lines begins or ends with whitespace, and it never has two blank
    lines in a row. *)
Theorem normalize_is_normalized (s : str) :
  NormalizedText (normalize_whitespace s).
Proof.
  split.
  - destruct (normalize_lines s) as (L & Hclean & -> & _).
    destruct L as [|l L].
    + simpl. repeat constructor.
    + rewrite lines_nl_join.
      * revert Hclean. apply Forall_impl. now intros x [_ Hx].
      * discriminate.
      * revert Hclean. apply Forall_impl. intros x [Hx _]. now apply lbfree_nlfree.
  - unfold normalize_whitespace. apply sub_newlines_no_triple.
Qed.

Lemma join_nl_chars (P : char -> Prop) L :
  P NL -> Forall (Forall P) L -> Forall P (join_nl L).
Proof.
  intros Hnl. induction 1 as [|l rest Hl Hrest IH]; [constructor|].
  destruct rest as [|l2 rest]; [exact Hl|].
  change (join_nl (l :: l2 :: rest)) with (l ++ NL :: join_nl (l2 :: rest)).
  apply Forall_app. split; [exact Hl|]. constructor; [exact Hnl|exact IH].
Qed.

(** X9: the newline is the only line boundary left by the
    post-processing: carriage returns, form feeds and the other
    boundaries of [splitlines] are gone. *)
Theorem normalize_only_newlines (s : str) :
  only_newline_breaks (normalize_whitespace s).
Proof.
  destruct (normalize_lines s) as (L & Hclean & -> & _).
  apply join_nl_chars; [reflexivity|].
  revert Hclean. apply Forall_impl. intros l [Hl _].
  revert Hl. unfold lbfree. apply Forall_impl. intros c Hc Hc'. congruence.
Qed.

(** X10: a normalized text whose only line boundaries are newlines is
    left as it is by the post-processing, but for a final newline, which
    is removed. *)
Theorem normalize_fixed_point (t : str) :
  NormalizedText t -> only_newline_breaks t ->
  normalize_whitespace t = chomp t.
Proof.
  intros [Hlines Htriple] Hbreaks.
  rewrite <- (join_lines_nl t []) at 1 2. simpl app.
  apply normalize_joined.
  - apply lines_nl_not_nil.
  - pose proof (lines_nl_nlfree t [] ltac:(constructor)) as Hnl.
    pose proof (lines_nl_chars _ t [] ltac:(constructor) Hbreaks) as Hbr.
    rewrite Forall_forall in *. intros l Hl. split; [|now apply Hlines].
    specialize (Hnl l Hl). specialize (Hbr l Hl).
    unfold lbfree. rewrite Forall_forall in *. intros c Hc.
    destruct (is_linebreak c) eqn:E; [|reflexivity].
    specialize (Hbr c Hc E). subst c. now specialize (Hnl NL Hc).
  - rewrite (join_lines_nl t []). simpl app.
    apply sub_newlines_stable; [exact Htriple|].
    pose proof (no_triple_nl_leading t Htriple). lia.
Qed.

Lemma tidy_text_normalized : NormalizedText tidy_text.
Proof. split; [repeat constructor|reflexivity]. Qed.

Lemma tidy_text_breaks : only_newline_breaks tidy_text.
Proof.
  unfold only_newline_breaks, tidy_text. apply Forall_forall. intros c Hc.
  simpl in Hc. intros E.
  repeat (destruct Hc as [<-|Hc]; [try reflexivity; discriminate|]). contradiction.
Qed.

Lemma normalize_fixed_point_witness :
  normalize_whitespace tidy_text = tidy_text.
Proof.
  exact (normalize_fixed_point tidy_text tidy_text_normalized tidy_text_breaks).
Defined.

Lemma length_join_nl_cons l L :
  (length (join_nl (l :: L)) <= length l + 1 + length (join_nl L))%nat.
Proof.
  destruct L as [|l2 L]; [simpl; lia|].
  change (join_nl (l :: l2 :: L)) with (l ++ NL :: join_nl (l2 :: L)).
  rewrite length_app. simpl. lia.
Qed.

Lemma length_join_splitlines s : forall cur,
  (length (join_nl (splitlines_from cur s)) <= length cur + length s)%nat.
Proof.
  induction s as [s IH] using (induction_ltof1 _ (@length char)).
  unfold ltof in IH. intros cur. destruct s as [|c r]; simpl splitlines_from.
  - destruct cur; simpl; lia.
  - destruct (is_linebreak c).
    + etransitivity; [apply length_join_nl_cons|]. simpl length.
      destruct r as [|c2 r2].
      * simpl. lia.
      * destruct ((c =? CR) && (c2 =? NL)).
        -- specialize (IH r2 ltac:(simpl; lia) []). simpl in *. lia.
        -- specialize (IH (c2 :: r2) ltac:(simpl; lia) []). simpl in *. lia.
    + specialize (IH r ltac:(simpl; lia) (cur ++ [c])).
      rewrite length_app in IH. simpl in *. lia.
Qed.

Lemma length_join_strip L :
  (length (join_nl (map strip L)) <= length (join_nl L))%nat.
Proof.
  induction L as [|l rest IH]; [simpl; lia|].
  pose proof (length_strip l) as Hl.
  destruct rest as [|l2 rest]; [exact Hl|].
  change (join_nl (l :: l2 :: rest)) with (l ++ NL :: join_nl (l2 :: rest)).
  change (map strip (l :: l2 :: rest)) with (strip l :: map strip (l2 :: rest)).
  rewrite join_nl_cons by discriminate.
  rewrite !length_app. simpl in *. lia.
Qed.

(** X11: the post-processing never makes the text longer. *)
Theorem normalize_not_longer (s : str) :
  (length (normalize_whitespace s) <= length s)%nat.
Proof.
  unfold normalize_whitespace.
  etransitivity; [apply length_sub_newlines|].
  etransitivity; [apply length_join_strip|].
  apply (length_join_splitlines s []).
Qed.

Lemma splitlines_from_chars (P : char -> Prop) s : forall cur,
  Forall P cur -> Forall P s -> Forall (Forall P) (splitlines_from cur s).
Proof.
  induction s as [s IH] using (induction_ltof1 _ (@length char)).
  unfold ltof in IH. intros cur Hcur Hs. destruct s as [|c r]; simpl.
  - destruct cur; [constructor|constructor; [exact Hcur|constructor]].
  - inversion Hs as [|? ? Hc Hr]; subst. destruct (is_linebreak c).
    + constructor; [exact Hcur|].
      destruct r as [|c2 r2]; [constructor|].
      destruct ((c =? CR) && (c2 =? NL)).
      * apply IH; [simpl; lia|constructor|]. now inversion Hr.
      * apply IH; [simpl; lia|constructor|exact Hr].
    + apply IH; [simpl; lia| |exact Hr]. apply Forall_app.
      split; [exact Hcur|now repeat constructor].
Qed.

Lemma dropwhile_all p s : Forall (fun c => p c = true) s -> dropwhile p s = [].
Proof.
  induction 1 as [|c r Hc Hr IH]; [reflexivity|]. simpl. now rewrite Hc.
Qed.

Lemma strip_blank l : Forall (fun c => is_space c = true) l -> strip l = [].
Proof.
  intros H. unfold strip, lstrip. now rewrite dropwhile_all.
Qed.

Lemma join_nl_empty_lines n :
  join_nl (repeat ([] : str) (S n)) = repeat NL n.
Proof.
  induction n as [|n IH]; [reflexivity|].
  transitivity (([] : str) ++ NL :: join_nl (repeat ([] : str) (S n)));
    [reflexivity|].
  rewrite IH. reflexivity.
Qed.

Lemma sub_newlines_repeat n : forall seen,
  sub_newlines seen (repeat NL n) = repeat NL (Nat.min n (2 - seen)).
Proof.
  induction n as [|n IH]; intros seen; [reflexivity|].
  change (repeat NL (S n)) with (NL :: repeat NL n). rewrite sub_newlines_nl.
  destruct (Nat.ltb_spec seen 2).
  - rewrite IH. destruct seen as [|[|seen]]; [| |lia].
    + change (2 - 0)%nat with 2%nat. change (2 - 1)%nat with 1%nat.
      rewrite <- Nat.succ_min_distr. reflexivity.
    + change (2 - 1)%nat with 1%nat. change (2 - 2)%nat with 0%nat.
      rewrite <- Nat.succ_min_distr. reflexivity.
  - rewrite IH. replace (2 - seen)%nat with 0%nat by lia.
    now rewrite !Nat.min_0_r.
Qed.

Lemma map_strip_blank L :
  Forall (Forall (fun c => is_space c = true)) L ->
  map strip L = repeat [] (length L).
Proof.
  induction 1 as [|l rest Hl _ IH]; [reflexivity|].
  simpl. now rewrite strip_blank, IH.
Qed.

(** X12: of a text made of whitespace only, the post-processing leaves
    nothing but newlines, two at most. *)
Theorem normalize_blank (s : str) :
  Forall (fun c => is_space c = true) s ->
  exists k, (k <= 2)%nat /\ normalize_whitespace s = repeat NL k.
Proof.
  intros Hs. unfold normalize_whitespace.
  pose proof (splitlines_from_chars _ s [] ltac:(constructor) Hs) as HL.
  fold (splitlines s) in HL. rewrite (map_strip_blank _ HL).
  match goal with |- context [repeat [] ?len] => destruct len as [|n] end.
  - exists 0%nat. split; [lia|reflexivity].
  - rewrite join_nl_empty_lines, sub_newlines_repeat.
    exists (Nat.min n 2). split; [lia|reflexivity].
Qed.

Lemma normalize_blank_witness :
  Forall (fun c => is_space c = true) blank_text
  /\ exists k, (k <= 2)%nat /\ normalize_whitespace blank_text = repeat NL k.
Proof.
  assert (H : Forall (fun c => is_space c = true) blank_text)
    by (repeat constructor).
  split; [exact H|]. exact (normalize_blank blank_text H).
Defined.

Lemma linebreak_is_space c : is_linebreak c = true -> is_space c = true.
Proof.
  unfold is_linebreak, is_space.
  rewrite !orb_true_iff, !andb_true_iff, !N.leb_le, !N.eqb_eq. lia.
Qed.

Lemma visible_app a b : visible (a ++ b) = visible a ++ visible b.
Proof. apply filter_app. Qed.

Lemma visible_dropwhile s : visible (dropwhile is_space s) = visible s.
Proof.
  induction s as [|c r IH]; [reflexivity|]. simpl.
  destruct (is_space c) eqn:E; simpl; [exact IH|]. unfold visible. simpl.
  now rewrite E.
Qed.

Lemma visible_rev s : visible (rev s) = rev (visible s).
Proof.
  unfold visible. induction s as [|c r IH]; [reflexivity|].
  simpl. rewrite filter_app, IH. simpl.
  destruct (negb (is_space c)); simpl; [reflexivity|now rewrite app_nil_r].
Qed.

Lemma visible_strip s : visible (strip s) = visible s.
Proof.
  unfold strip, rstrip, lstrip.
  rewrite visible_rev, visible_dropwhile, visible_rev, rev_involutive.
  apply visible_dropwhile.
Qed.

Lemma visible_join_nl L : visible (join_nl L) = concat (map visible L).
Proof.
  induction L as [|l rest IH]; [reflexivity|].
  destruct rest as [|l2 rest]; [simpl; now rewrite app_nil_r|].
  change (join_nl (l :: l2 :: rest)) with (l ++ NL :: join_nl (l2 :: rest)).
  rewrite visible_app. change (NL :: ?x) with ([NL] ++ x).
  rewrite visible_app, IH. reflexivity.
Qed.

Lemma visible_splitlines s : forall cur,
  concat (map visible (splitlines_from cur s)) = visible cur ++ visible s.
Proof.
  induction s as [s IH] using (induction_ltof1 _ (@length char)).
  unfold ltof in IH. intros cur. destruct s as [|c r]; simpl splitlines_from.
  - destruct cur; simpl; now rewrite ?app_nil_r.
  - destruct (is_linebreak c) eqn:E.
    + apply linebreak_is_space in E.
      assert (Hc : visible (c :: r) = visible r)
        by (unfold visible; simpl; now rewrite E).
      rewrite Hc. simpl. f_equal.
      destruct r as [|c2 r2]; [reflexivity|].
      destruct ((c =? CR) && (c2 =? NL)) eqn:E2.
      * rewrite IH by (simpl; lia).
        apply andb_true_iff in E2. destruct E2 as [_ E2].
        apply N.eqb_eq in E2. subst c2. reflexivity.
      * rewrite IH by (simpl; lia). reflexivity.
    + rewrite IH by (simpl; lia). rewrite visible_app.
      change (c :: r) with ([c] ++ r). rewrite (visible_app [c] r).
      now rewrite <- app_assoc.
Qed.

Lemma visible_sub_newlines s : forall seen,
  visible (sub_newlines seen s) = visible s.
Proof.
  induction s as [|c r IH]; intros seen; [reflexivity|].
  destruct (is_nl c) eqn:E.
  - pose proof E as Ec. apply is_nl_eq in Ec. subst c. rewrite sub_newlines_nl.
    destruct (seen <? 2)%nat.
    + change (visible (NL :: ?x)) with (visible x). apply IH.
    + change (visible (NL :: r)) with (visible r). apply IH.
  - rewrite sub_newlines_other by exact E.
    unfold visible. simpl. fold (visible (sub_newlines 0 r)). fold (visible r).
    now rewrite IH.
Qed.

(** X13: the post-processing touches whitespace only: the characters that
    are not whitespace are the same, in the same order, before and
    after. *)
Theorem normalize_keeps_text (s : str) :
  visible (normalize_whitespace s) = visible s.
Proof.
  unfold normalize_whitespace.
  rewrite visible_sub_newlines, visible_join_nl, map_map.
  rewrite (map_ext _ visible) by (intros l; apply visible_strip).
  apply (visible_splitlines s []).
Qed.

(* ================================================================== *)
(** * More on the chunker *)
(* ================================================================== *)

Lemma section_text_len h b : len (section_text (h, b)) = (len h + len b)%Z.
Proof. unfold section_text, len. simpl. rewrite length_app. lia. Qed.

(** The groups of the loop, with the reason why each one was closed. *)
Lemma section_loop_greedy m secs : forall sections curg,
  Forall (fun p => starts_with_hash (fst p)) (curg ++ secs) ->
  exists groups,
    finish (fold_left (section_step m) secs (sections, sections_text curg))
    = sections ++ map chunk_of groups
    /\ concat groups = curg ++ secs
    /\ closed_when_full m groups
    /\ (curg <> [] -> exists ext rest, groups = (curg ++ ext) :: rest).
Proof.
  induction secs as [|[h b] r IH]; intros sections curg Hh.
  - rewrite app_nil_r in *. cbn [fold_left]. unfold finish. cbn [fst snd].
    destruct curg as [|p g].
    + exists []. simpl. rewrite app_nil_r. repeat split. congruence.
    + destruct (sections_text_hash (p :: g) ltac:(congruence) Hh) as [x Hx].
      rewrite Hx. exists [p :: g]. cbn [map concat]. unfold chunk_of. rewrite Hx.
      rewrite app_nil_r. repeat split. intros _. exists [], [].
      now rewrite app_nil_r.
  - cbn [fold_left]. rewrite section_step_eq.
    destruct (negb (len (sections_text curg) =? 0)%Z
              && (len (sections_text curg) + len h + len b >? m)%Z) eqn:E.
    + apply andb_true_iff in E. destruct E as [E1 E2].
      assert (Hne : curg <> []).
      { intros ->. unfold sections_text in E1. simpl in E1. discriminate. }
      assert (Hh' : Forall (fun p => starts_with_hash (fst p)) ([(h, b)] ++ r)).
      { apply Forall_app in Hh. tauto. }
      destruct (IH (sections ++ [strip (sections_text curg)]) [(h, b)] Hh')
        as (groups & Hf & Hc & Hg & Hfirst).
      destruct (Hfirst ltac:(discriminate)) as (ext & rest & ->).
      exists (curg :: ([(h, b)] ++ ext) :: rest).
      replace (h ++ b) with (sections_text [(h, b)])
        by (unfold sections_text, section_text; simpl; now rewrite app_nil_r).
      split; [etransitivity; [exact Hf|]; simpl; now rewrite <- app_assoc|].
      split; [simpl in *; now rewrite Hc|].
      split.
      * split; [|exact Hg]. cbn [app]. rewrite section_text_len.
        rewrite Z.gtb_ltb in E2. apply Z.ltb_lt in E2. lia.
      * intros _. exists [], (([(h, b)] ++ ext) :: rest). now rewrite app_nil_r.
    + assert (Hh' : Forall (fun p => starts_with_hash (fst p))
                      ((curg ++ [(h, b)]) ++ r)) by now rewrite <- app_assoc.
      destruct (IH sections (curg ++ [(h, b)]) Hh')
        as (groups & Hf & Hc & Hg & Hfirst).
      exists groups.
      replace (sections_text curg ++ h ++ b)
        with (sections_text (curg ++ [(h, b)])).
      * split; [exact Hf|]. split; [now rewrite Hc, <- app_assoc|].
        split; [exact Hg|]. intros _.
        destruct (Hfirst ltac:(destruct curg; discriminate)) as (ext & rest & ->).
        exists ([(h, b)] ++ ext), rest. now rewrite app_assoc.
      * rewrite sections_text_app. unfold sections_text at 2. unfold section_text.
        simpl. now rewrite app_nil_r.
Qed.

(** X14: the chunker is greedy: a chunk is closed only when the next
    heading-section would take it beyond [max_chunk_size]; two chunks
    that follow each other could never have been one within the bound. *)
Theorem chunks_closed_when_full (text : str) (m : Z) :
  exists groups,
    re_split_headings text = preamble text :: interleave (concat groups)
    /\ split_markdown text m = map chunk_of groups
    /\ closed_when_full m groups.
Proof.
  destruct (section_loop_greedy m (heading_sections text) [] []
              (heading_sections_hash text)) as (groups & Hf & Hc & Hg & _).
  exists groups. split; [|split; [|exact Hg]].
  - simpl in Hc. rewrite Hc. apply re_split_headings_sections.
  - rewrite split_markdown_sections. exact Hf.
Qed.

Lemma match_heading_length s h rest :
  match_heading s = Some (h, rest) -> (2 <= length h)%nat.
Proof.
  unfold match_heading.
  destruct (span is_hash s) as [hashes r1].
  destruct hashes as [|x hs]; [discriminate|].
  destruct r1 as [|c r2]; [discriminate|].
  destruct (is_space c); [|discriminate].
  destruct (span (fun x => negb (is_nl x)) r2) as [line r3].
  intros [= <- <-]. simpl. rewrite length_app. simpl. lia.
Qed.

Lemma scan_heading_length fuel : forall bol gap s,
  Forall (fun p => (2 <= length (fst p))%nat) (snd (scan fuel bol gap s)).
Proof.
  induction fuel as [|f IH]; intros bol gap s; simpl; [constructor|].
  destruct (if bol then match_heading s else None) as [[h rest]|] eqn:E.
  - assert (Hm : match_heading s = Some (h, rest))
      by (destruct bol; [exact E|discriminate]).
    specialize (IH (is_nl (last h 0)) [] rest).
    destruct (scan f (is_nl (last h 0)) [] rest) as [body more]. simpl in *.
    constructor; [|exact IH]. simpl. eapply match_heading_length; eauto.
  - destruct s as [|c r]; [constructor|apply IH].
Qed.

Lemma small_bound_loop m secs : forall sections p,
  (m <= 3)%Z ->
  Forall (fun p => (2 <= length (fst p))%nat) (p :: secs) ->
  finish (fold_left (section_step m) secs (sections, section_text p))
  = sections ++ map (fun p => strip (section_text p)) (p :: secs).
Proof.
  induction secs as [|[h b] r IH]; intros sections [h0 b0] Hm Hl.
  - cbn [fold_left map]. unfold finish. cbn [fst snd].
    inversion Hl as [|? ? Hp _]; subst. cbn [fst] in Hp.
    destruct (section_text (h0, b0)) eqn:E; [|reflexivity].
    unfold section_text in E. cbn [fst snd] in E.
    apply app_eq_nil in E. destruct E as [E _].
    rewrite E in Hp. simpl in Hp. lia.
  - cbn [fold_left]. rewrite section_step_eq.
    inversion Hl as [|? ? Hp Hr]; subst. inversion Hr as [|? ? Hh _]; subst.
    cbn [fst] in Hh, Hp.
    assert (Hcur : (2 <= len (section_text (h0, b0)))%Z).
    { unfold len, section_text. cbn [fst snd]. rewrite length_app. lia. }
    assert (E : negb (len (section_text (h0, b0)) =? 0)%Z
                && (len (section_text (h0, b0)) + len h + len b >? m)%Z = true).
    { apply andb_true_iff. split.
      - apply negb_true_iff, Z.eqb_neq. lia.
      - rewrite Z.gtb_ltb. apply Z.ltb_lt. unfold len in *. lia. }
    rewrite E. change (h ++ b) with (section_text (h, b)).
    rewrite IH by assumption. cbn [map]. now rewrite <- app_assoc.
Qed.

(** X15: with a [max_chunk_size] of three or less nothing is ever put
    together: every heading-section is a chunk of its own. *)
Theorem one_chunk_per_section (text : str) (m : Z) :
  (m <= 3)%Z ->
  split_markdown text m
  = map (fun p => strip (section_text p)) (heading_sections text).
Proof.
  intros Hm. rewrite split_markdown_sections.
  pose proof (scan_heading_length (S (length text)) true [] text) as Hl.
  fold (heading_sections text) in Hl.
  destruct (heading_sections text) as [|[h b] r]; [reflexivity|].
  cbn [fold_left]. rewrite section_step_eq. cbn [len length Z.of_nat Z.eqb negb andb].
  change ([] ++ h ++ b) with (section_text (h, b)).
  now rewrite small_bound_loop.
Qed.

Lemma one_chunk_per_section_witness :
  split_markdown three_sections_text 0
  = map (fun p => strip (section_text p)) (heading_sections three_sections_text).
Proof. apply one_chunk_per_section. lia. Defined.

Lemma sections_text_cons (p : section) (g : list section) :
  sections_text (p :: g) = fst p ++ snd p ++ sections_text g.
Proof.
  unfold sections_text. simpl. unfold section_text at 1.
  now rewrite <- app_assoc.
Qed.

Lemma large_bound_loop m (secs : list section) : forall sections cur,
  (len cur + len (sections_text secs) <= m)%Z ->
  fold_left (section_step m) secs (sections, cur)
  = (sections, cur ++ sections_text secs).
Proof.
  induction secs as [|p r IH]; intros sections cur Hm.
  - simpl. unfold sections_text. simpl. now rewrite app_nil_r.
  - cbn [fold_left]. destruct p as [h b]. rewrite section_step_eq.
    rewrite (sections_text_cons (h, b) r) in Hm |- *. cbn [fst snd] in Hm |- *.
    unfold len in Hm. rewrite !length_app in Hm.
    assert (E : (len cur + len h + len b >? m)%Z = false).
    { rewrite Z.gtb_ltb. apply Z.ltb_ge. unfold len. lia. }
    rewrite E, andb_false_r. rewrite IH.
    + now rewrite <- !app_assoc.
    + unfold len. rewrite !length_app. lia.
Qed.

Lemma sections_text_after_preamble text :
  sections_text (heading_sections text) = skipn (length (preamble text)) text.
Proof.
  rewrite (text_decomposition text) at 3.
  rewrite skipn_app, skipn_all, Nat.sub_diag. reflexivity.
Qed.

(** X16: when the whole text is within [max_chunk_size], there is one
    chunk at most: the text from its first heading line on, stripped. *)
Theorem single_chunk (text : str) (m : Z) :
  (len text <= m)%Z ->
  split_markdown text m
  = match heading_sections text with
    | [] => []
    | _ :: _ => [strip (skipn (length (preamble text)) text)]
    end.
Proof.
  intros Hm. rewrite split_markdown_sections, large_bound_loop.
  - rewrite <- sections_text_after_preamble. unfold finish. cbn [fst snd app].
    pose proof (heading_sections_hash text) as Hh.
    destruct (heading_sections text) as [|p g]; [reflexivity|].
    destruct (sections_text_hash (p :: g) ltac:(congruence) Hh) as [x ->].
    reflexivity.
  - pose proof (text_decomposition text) as Ht.
    assert (Hl : length text = (length (preamble text)
                   + length (sections_text (heading_sections text)))%nat)
      by (rewrite Ht at 1; apply length_app).
    unfold len in *. simpl. lia.
Qed.

Lemma single_chunk_witness :
  split_markdown three_sections_text 750
  = [strip (skipn (length (preamble three_sections_text)) three_sections_text)].
Proof.
  apply (single_chunk three_sections_text 750). vm_compute. discriminate.
Defined.

(** X17: no chunk begins or ends with whitespace: [strip] leaves every
    chunk as it is. *)
Theorem chunks_are_stripped (text : str) (m : Z) :
  Forall (fun chunk => strip chunk = chunk) (split_markdown text m).
Proof.
  destruct (split_markdown_groups text m) as (groups & -> & _).
  apply Forall_map, Forall_forall. intros g _. apply strip_idem.
Qed.

Lemma length_concat_nonempty {A} (groups : list (list A)) :
  Forall (fun g => g <> []) groups ->
  (length groups <= length (concat groups))%nat.
Proof.
  induction 1 as [|g gs Hg _ IH]; [simpl; lia|].
  simpl. rewrite length_app. destruct g; [congruence|simpl; lia].
Qed.

Lemma length_concat_strip pieces :
  (length (concat (map strip pieces)) <= length (concat pieces))%nat.
Proof.
  induction pieces as [|p ps IH]; [simpl; lia|].
  simpl. rewrite !length_app. pose proof (length_strip p). lia.
Qed.

(** X18: there are no more chunks than heading-sections, and the chunks
    together are no longer than the text. *)
Theorem chunks_not_more (text : str) (m : Z) :
  (length (split_markdown text m) <= length (heading_sections text))%nat
  /\ (length (concat (split_markdown text m)) <= length text)%nat.
Proof.
  split.
  - destruct (split_markdown_groups text m) as (groups & -> & <- & Hn & _).
    rewrite length_map. now apply length_concat_nonempty.
  - destruct (split_markdown_pieces text m) as (pieces & Ht & -> & _).
    assert (Hl : length text
                 = (length (preamble text) + length (concat pieces))%nat)
      by (rewrite Ht at 1; apply length_app).
    pose proof (length_concat_strip pieces). lia.
Qed.

Lemma range_from_bound n : forall start step i,
  In i (range_from n start step) ->
  exists k, (k < n)%nat /\ i = (start + k * step)%nat.
Proof.
  induction n as [|n IH]; intros start step i Hi; [contradiction|].
  destruct Hi as [<-|Hi].
  - exists 0%nat. split; lia.
  - destruct (IH _ _ _ Hi) as (k & Hk & ->). exists (S k). split; lia.
Qed.

(** X19: the fallback [content = ""] of the loop is never taken: for
    every index [i] of the loop, [headlines[i + 1]] exists. *)
Theorem content_always_present (text : str) :
  Forall (fun i => (i + 1 < length (re_split_headings text))%nat)
         (range 1 (length (re_split_headings text)) 2).
Proof.
  rewrite length_re_split_headings.
  unfold range.
  replace (S (2 * length (heading_sections text)) - 1 + (2 - 1))%nat
    with (1 + length (heading_sections text) * 2)%nat by lia.
  rewrite Nat.div_add by lia. apply Forall_forall. intros i Hi.
  apply range_from_bound in Hi. destruct Hi as (k & Hk & ->).
  change (1 / 2)%nat with 0%nat in Hk. lia.
Qed.

Lemma dropwhile_slice p s : exists a, s = a ++ dropwhile p s.
Proof. apply dropwhile_suffix. Qed.

Lemma strip_slice s : slice_of s (strip s).
Proof.
  unfold strip, rstrip, lstrip.
  destruct (dropwhile_suffix is_space s) as [a Ha].
  destruct (dropwhile_suffix is_space (rev (dropwhile is_space s))) as [b Hb].
  exists a, (rev b). rewrite Ha at 1. f_equal.
  rewrite <- (rev_involutive (dropwhile is_space s)) at 1.
  rewrite Hb at 1. now rewrite rev_app_distr.
Qed.

Lemma slice_of_concat pieces p : In p pieces -> slice_of (concat pieces) p.
Proof.
  intros Hin. apply in_split in Hin. destruct Hin as (l1 & l2 & ->).
  exists (concat l1), (concat l2). rewrite concat_app. reflexivity.
Qed.

Lemma slice_of_trans a b c : slice_of a b -> slice_of b c -> slice_of a c.
Proof.
  intros (x & y & ->) (u & v & ->). exists (x ++ u), (v ++ y).
  now rewrite <- !app_assoc.
Qed.

(** X20: every chunk is a contiguous slice of the text: the chunker
    neither adds a character nor takes one out in the middle of a chunk. *)
Theorem chunks_are_slices (text : str) (m : Z) :
  Forall (slice_of text) (split_markdown text m).
Proof.
  destruct (split_markdown_pieces text m) as (pieces & Ht & -> & _).
  apply Forall_map, Forall_forall. intros p Hp.
  apply (slice_of_trans _ p); [|apply strip_slice].
  apply (slice_of_trans _ (concat pieces)); [|now apply slice_of_concat].
  exists (preamble text), []. now rewrite app_nil_r.
Qed.

(* ================================================================== *)
(** * More on the sink *)
(* ================================================================== *)

Lemma hex_digit_not_control d : d < 16 -> is_control (hex_digit d) = false.
Proof.
  intros H. unfold is_control, hex_digit.
  destruct (N.ltb_spec d 10);
    apply orb_false_iff; split;
    try (apply N.ltb_ge; lia); apply N.eqb_neq; lia.
Qed.

Lemma hex_digits_not_control n v :
  Forall (fun c => is_control c = false) (hex_digits n v).
Proof.
  induction n as [|n IH]; [constructor|]. simpl. constructor; [|exact IH].
  apply hex_digit_not_control, mod_16_lt.
Qed.

Lemma repr_char_not_control isprintable quote c :
  is_quote quote ->
  Forall (fun x => is_control x = false) (repr_char isprintable quote c).
Proof.
  unfold is_quote, QUOTE, DQUOTE. intros Hq.
  assert (Hqc : is_control quote = false) by (destruct Hq; subst; reflexivity).
  unfold repr_char, BACKSLASH, TAB, NL, CR.
  destruct (N.eqb_spec c quote) as [->|Hcq]; cbn [orb].
  { repeat constructor. exact Hqc. }
  destruct (N.eqb_spec c 92) as [->|Hb]; [repeat constructor|].
  destruct (c =? 9); [repeat constructor|].
  destruct (c =? 10); [repeat constructor|].
  destruct (c =? 13); [repeat constructor|].
  assert (Hx : forall k, Forall (fun x => is_control x = false)
                 (92 :: of_string "x" ++ hex_digits k c)).
  { intros k. constructor; [reflexivity|]. constructor; [reflexivity|].
    apply hex_digits_not_control. }
  assert (Hu : Forall (fun x => is_control x = false)
                 (92 :: of_string "u" ++ hex_digits 4 c)).
  { constructor; [reflexivity|]. constructor; [reflexivity|].
    apply hex_digits_not_control. }
  assert (HU : Forall (fun x => is_control x = false)
                 (92 :: of_string "U" ++ hex_digits 8 c)).
  { constructor; [reflexivity|]. constructor; [reflexivity|].
    apply hex_digits_not_control. }
  destruct ((c <? 32) || (c =? 127)) eqn:E; [apply Hx|].
  assert (Hc : is_control c = false) by exact E.
  destruct (c <? 127); [now repeat constructor|].
  destruct (isprintable c); [now repeat constructor|].
  destruct (c <=? 255); [apply Hx|].
  destruct (c <=? 65535); [apply Hu|apply HU].
Qed.

Lemma repr_not_control isprintable item :
  Forall (fun x => is_control x = false) (repr isprintable item).
Proof.
  pose proof (repr_quote_is_quote item) as Hq. unfold repr.
  assert (Hqc : is_control (repr_quote item) = false)
    by (destruct Hq as [-> | ->]; reflexivity).
  constructor; [exact Hqc|]. apply Forall_app. split.
  - apply Forall_flat_map, Forall_forall. intros c _.
    now apply repr_char_not_control.
  - now repeat constructor.
Qed.

Lemma filter_none {A} (p : A -> bool) l :
  Forall (fun x => p x = false) l -> filter p l = [].
Proof.
  induction 1 as [|x l Hx _ IH]; [reflexivity|]. simpl. now rewrite Hx.
Qed.

Lemma item_line_controls isprintable item :
  filter is_control (of_string "    " ++ repr isprintable item ++ [COMMA; NL])
  = [NL].
Proof.
  rewrite !filter_app.
  rewrite (filter_none _ _ (repr_not_control isprintable item)).
  reflexivity.
Qed.

Lemma concat_controls (pieces : list str) :
  Forall (fun s => filter is_control s = [NL]) pieces ->
  filter is_control (concat pieces) = repeat NL (length pieces).
Proof.
  induction 1 as [|s pieces Hs _ IH]; [reflexivity|].
  cbn [concat length repeat]. now rewrite filter_app, Hs, IH.
Qed.

(** X21: every item takes exactly one line of the file, whatever it
    contains: the only control characters of the file are its newlines,
    one for each write that went through: one after the opening bracket,
    one after each item and one at the end when no write raised. *)
Theorem one_line_per_item (isprintable encodable : char -> bool)
    (data_list : list str) :
  exists k,
    (k <= length data_list + 2)%nat
    /\ filter is_control
         (written (save_list_to_file isprintable encodable data_list))
       = repeat NL k
    /\ (raised (save_list_to_file isprintable encodable data_list) = None
        -> k = (length data_list + 2)%nat).
Proof.
  rewrite save_list_to_file_writes.
  set (pieces := [LBRACKET; NL]
         :: map (fun item => of_string "    " ++ repr isprintable item
                             ++ [COMMA; NL]) data_list
         ++ [[RBRACKET; NL]]).
  assert (Hlen : length pieces = (length data_list + 2)%nat).
  { unfold pieces. cbn [length]. rewrite length_app, length_map. simpl. lia. }
  assert (Hp : Forall (fun s => filter is_control s = [NL]) pieces).
  { unfold pieces. constructor; [reflexivity|]. apply Forall_app. split.
    - apply Forall_map, Forall_forall. intros item _.
      apply item_line_controls.
    - constructor; [reflexivity|constructor]. }
  destruct (writes_whole encodable pieces {| written := []; raised := None |}
              eq_refl) as (k & Hk & Hw & Hr).
  unfold str, char in *.
  exists k. split; [lia|]. split.
  - rewrite Hw. cbn [written app]. rewrite concat_controls.
    + rewrite length_firstn. f_equal. lia.
    + rewrite <- (firstn_skipn k pieces) in Hp. apply Forall_app in Hp. tauto.
  - intros Hn. specialize (Hr Hn). lia.
Qed.

Lemma contains_false c s :
  Forall (fun x => x <> c) s -> contains c s = false.
Proof.
  unfold contains. induction 1 as [|x l Hx _ IH]; [reflexivity|].
  simpl. rewrite IH, orb_false_r. apply N.eqb_neq. congruence.
Qed.

Lemma repr_plain isprintable item :
  Forall (fun c => is_plain c = true) item ->
  repr isprintable item = QUOTE :: item ++ [QUOTE].
Proof.
  intros H. unfold repr.
  assert (Hq : repr_quote item = QUOTE).
  { unfold repr_quote. rewrite (contains_false QUOTE); [reflexivity|].
    revert H. apply Forall_impl. intros c Hc ->. discriminate. }
  rewrite Hq. f_equal. f_equal. clear Hq.
  induction H as [|c l Hc _ IH]; [reflexivity|].
  cbn [flat_map]. rewrite IH.
  unfold is_plain, QUOTE, BACKSLASH in Hc.
  rewrite !andb_true_iff, !negb_true_iff, N.leb_le, N.ltb_lt, !N.eqb_neq in Hc.
  destruct Hc as [[[H1 H2] H3] H4].
  unfold repr_char, QUOTE, BACKSLASH, TAB, NL, CR.
  replace (c =? 39) with false by (symmetry; apply N.eqb_neq; lia).
  replace (c =? 92) with false by (symmetry; apply N.eqb_neq; lia).
  replace (c =? 9) with false by (symmetry; apply N.eqb_neq; lia).
  replace (c =? 10) with false by (symmetry; apply N.eqb_neq; lia).
  replace (c =? 13) with false by (symmetry; apply N.eqb_neq; lia).
  replace (c =? 127) with false by (symmetry; apply N.eqb_neq; lia).
  replace (c <? 32) with false by (symmetry; apply N.ltb_ge; lia).
  replace (c <? 127) with true by (symmetry; apply N.ltb_lt; lia).
  reflexivity.
Qed.

Lemma is_plain_ascii c : is_plain c = true -> c < 0x80.
Proof.
  unfold is_plain. rewrite !andb_true_iff, N.ltb_lt. intros [[[_ H] _] _]. lia.
Qed.

(** X22: items made of printable ASCII characters without single quote
    or backslash are written as they are, by a file whose encoding holds
    the ASCII characters: no write raises, and the file is an opening
    bracket, then each item on a line of its own, behind four spaces,
    between single quotes and before a comma, then a closing bracket. *)
Theorem plain_items_file (isprintable encodable : char -> bool)
    (data_list : list str) :
  (forall c, c < 0x80 -> encodable c = true) ->
  Forall (Forall (fun c => is_plain c = true)) data_list ->
  save_list_to_file isprintable encodable data_list
  = {| written :=
         [LBRACKET; NL]
         ++ flat_map (fun item => of_string "    '" ++ item ++ [QUOTE; COMMA; NL])
                     data_list
         ++ [RBRACKET; NL];
       raised := None |}.
Proof.
  intros Ha H. rewrite save_list_to_file_fits.
  - f_equal. f_equal. f_equal.
    induction H as [|item l Hi _ IH]; [reflexivity|].
    cbn [flat_map]. rewrite IH, (repr_plain isprintable item Hi). f_equal.
    cbn [of_string list_ascii_of_string map app]. rewrite <- !app_assoc.
    reflexivity.
  - split; [exact Ha|]. revert H. apply Forall_impl. intros item.
    apply Forall_impl. intros c Hc _. now apply Ha, is_plain_ascii.
Qed.

Lemma plain_items_file_witness :
  save_list_to_file (fun _ => false) ascii_encoding
    [plain_item; of_string "short"]
  = {| written :=
         [LBRACKET; NL]
         ++ flat_map (fun item => of_string "    '" ++ item ++ [QUOTE; COMMA; NL])
                     [plain_item; of_string "short"]
         ++ [RBRACKET; NL];
       raised := None |}.
Proof.
  apply plain_items_file.
  - intros c Hc. now apply N.ltb_lt.
  - repeat (constructor;
            [apply Forall_forall; intros c Hc; simpl in Hc;
             repeat (destruct Hc as [<-|Hc]; [reflexivity|]); contradiction|]).
    constructor.
Defined.

(* ================================================================== *)
(** * More on the pipeline driver *)
(* ================================================================== *)

(** X23: the log of a run over the discovered URLs, from first to last:
    what the discovery left; then for each URL in order the warnings and
    sleeps of its fetch, the number of its chunks or its failure, and a
    sleep of one second; then the number of chunks of the run, which is the
    number handed to the save; and at the end the file name, unless the
    save raised. *)
Theorem run_log_structure (isprintable encodable : char -> bool)
    (web : str -> nat -> get_result) (convert : str -> outcome str)
    (urls : list str) (discovery_log : list event) :
  run_log (scrapping_notion isprintable encodable web convert
             (Returned urls, discovery_log))
  = discovery_log
    ++ flat_map (url_events web convert) urls
    ++ Info_chunks_total
         (length (run_chunks (scrapping_notion isprintable encodable web convert
                                (Returned urls, discovery_log))))
       :: match run_raised (scrapping_notion isprintable encodable web convert
                              (Returned urls, discovery_log)) with
          | None => [Info_saved "results.txt"%string]
          | Some _ => []
          end.
Proof.
  unfold scrapping_notion.
  pose proof (process_urls_log web convert urls [] discovery_log) as H.
  destruct (fold_left (process_url web convert) urls ([], discovery_log))
    as [chunks log].
  cbn [snd run_log run_chunks run_raised] in *. rewrite H.
  destruct (raised (save_list_to_file isprintable encodable chunks));
    rewrite <- ?app_assoc; reflexivity.
Qed.

Lemma seconds_slept_app a b :
  seconds_slept (a ++ b) = (seconds_slept a + seconds_slept b)%nat.
Proof.
  induction a as [|ev a IH]; [reflexivity|].
  simpl. destruct ev; rewrite ?IH; lia.
Qed.

Lemma retrying_seconds body net more : forall n,
  (seconds_slept (snd (retrying body net more n)) <= 3 * more)%nat.
Proof.
  induction more as [|more IH]; intros n; simpl.
  - destruct (body (net n)); simpl; lia.
  - destruct (body (net n)); [simpl; lia|].
    specialize (IH (S n)). destruct (retrying body net more (S n)).
    simpl in *. lia.
Qed.

Lemma read_url_seconds web convert url :
  (seconds_slept (snd (read_url web convert url)) <= 6)%nat.
Proof.
  unfold read_url, fetch_url.
  pose proof (retrying_seconds fetch_url_body (web url) 2 1) as H.
  destruct (retrying fetch_url_body (web url) 2 1) as [[html|e] evs];
    simpl in *; lia.
Qed.

Lemma url_events_seconds web convert url :
  (1 <= seconds_slept (url_events web convert url) <= 7)%nat.
Proof.
  unfold url_events. rewrite seconds_slept_app.
  pose proof (read_url_seconds web convert url) as Hr.
  unfold outcome_event.
  destruct (url_fails web convert url); simpl seconds_slept in *; lia.
Qed.

(** X24: the seconds slept in a run over the discovered URLs.  Each URL
    takes at least one second and at most seven: one second after the
    document, read or not, and six at most while fetching it.  The run
    sleeps what the discovery slept and, on top of it, what its URLs
    take. *)
Theorem run_seconds_slept (isprintable encodable : char -> bool)
    (web : str -> nat -> get_result) (convert : str -> outcome str)
    (urls : list str) (discovery_log : list event) :
  (forall url, 1 <= seconds_slept (url_events web convert url) <= 7)%nat
  /\ seconds_slept (run_log (scrapping_notion isprintable encodable web convert
                               (Returned urls, discovery_log)))
     = (seconds_slept discovery_log
        + list_sum (map (fun url => seconds_slept (url_events web convert url))
                        urls))%nat.
Proof.
  split; [apply url_events_seconds|].
  unfold scrapping_notion.
  pose proof (process_urls_log web convert urls [] discovery_log) as H.
  destruct (fold_left (process_url web convert) urls ([], discovery_log))
    as [chunks log].
  cbn [snd run_log] in *. rewrite H.
  assert (Hs : seconds_slept (flat_map (url_events web convert) urls)
               = list_sum (map (fun url => seconds_slept (url_events web convert url))
                               urls)).
  { clear. induction urls as [|url urls IH]; [reflexivity|].
    cbn [flat_map map list_sum fold_right]. rewrite seconds_slept_app.
    unfold list_sum in IH. now rewrite IH. }
  destruct (raised (save_list_to_file isprintable encodable chunks));
    rewrite !seconds_slept_app, Hs; simpl; lia.
Qed.

Lemma urls_of_json_data_quiet str_of_value base json_data :
  seconds_slept (snd (urls_of_json_data str_of_value base json_data)) = 0%nat
  /\ filter is_failure (snd (urls_of_json_data str_of_value base json_data)) = [].
Proof.
  unfold urls_of_json_data.
  repeat match goal with
         | |- context [match ?x with Returned _ => _ | Raised _ => _ end] =>
             destruct x
         end; split; reflexivity.
Qed.

Lemma discovery_body_quiet index_web load_next_data str_of_value n :
  (seconds_slept
     (snd (get_help_docs_urls_body index_web load_next_data str_of_value n))
   <= 6)%nat
  /\ filter is_failure
       (snd (get_help_docs_urls_body index_web load_next_data str_of_value n))
     = [].
Proof.
  unfold get_help_docs_urls_body, fetch_url.
  pose proof (retrying_seconds fetch_url_body (index_web n) 2 1) as Hs.
  pose proof (retrying_no_failure fetch_url_body (index_web n) 2 1) as Hf.
  destruct (retrying fetch_url_body (index_web n) 2 1) as [[html|e] evs];
    cbn [snd] in *; [|split; [lia|exact Hf]].
  destruct (load_next_data html) as [json_data|e]; cbn [snd];
    [|split; [lia|exact Hf]].
  destruct (urls_of_json_data_quiet str_of_value notion_base_url json_data)
    as [Hq1 Hq2].
  destruct (urls_of_json_data str_of_value notion_base_url json_data)
    as [r log].
  cbn [snd] in *. rewrite seconds_slept_app, filter_app, Hf, Hq2. split; [lia|reflexivity].
Qed.

(** When the discovery raises, so does the run: no URL is read, and no
    file is written. *)
Lemma run_without_urls isprintable encodable index_web load_next_data
    str_of_value web convert e log :
  get_help_docs_urls_retried index_web load_next_data str_of_value
  = (Raised e, log) ->
  scrapping_notion_run isprintable encodable index_web load_next_data
    str_of_value web convert
  = {| run_chunks := []; run_log := log; results_txt := None;
       run_raised := Some e |}.
Proof. intros H. unfold scrapping_notion_run. now rewrite H. Qed.

(** X30: whatever the help page and its data are, the discovery sleeps at
    most twenty-four seconds (three fetches of six seconds at most, and
    three seconds before each of its two retries) and logs no failure of a
    URL. *)
Theorem discovery_seconds_slept (index_web : nat -> nat -> get_result)
    (load_next_data : str -> outcome json) (str_of_value : json -> str) :
  (seconds_slept
     (snd (get_help_docs_urls_retried index_web load_next_data str_of_value))
   <= 24)%nat
  /\ filter is_failure
       (snd (get_help_docs_urls_retried index_web load_next_data str_of_value))
     = [].
Proof.
  unfold get_help_docs_urls_retried. cbn [retry_call].
  destruct (discovery_body_quiet index_web load_next_data str_of_value 1)
    as [S1 F1].
  destruct (discovery_body_quiet index_web load_next_data str_of_value 2)
    as [S2 F2].
  destruct (discovery_body_quiet index_web load_next_data str_of_value 3)
    as [S3 F3].
  destruct (get_help_docs_urls_body index_web load_next_data str_of_value 1)
    as [[v1|e1] l1]; cbn [snd] in *; [split; [lia|exact F1]|].
  destruct (get_help_docs_urls_body index_web load_next_data str_of_value 2)
    as [[v2|e2] l2]; cbn [snd] in *.
  { rewrite seconds_slept_app, filter_app, F1. simpl. split; [lia|exact F2]. }
  destruct (get_help_docs_urls_body index_web load_next_data str_of_value 3)
    as [[v3|e3] l3]; cbn [snd] in *;
    rewrite seconds_slept_app, filter_app, F1; simpl;
    rewrite seconds_slept_app, filter_app, F2; simpl; (split; [lia|exact F3]).
Qed.

Lemma slice_chars (P : char -> Prop) text chunk :
  slice_of text chunk -> Forall P text -> Forall P chunk.
Proof.
  intros (a & b & ->) H. apply Forall_app in H. destruct H as [_ H].
  apply Forall_app in H. tauto.
Qed.

Lemma split_markdown_chars (P : char -> Prop) text m :
  Forall P text -> Forall (Forall P) (split_markdown text m).
Proof.
  intros H.
  destruct (split_markdown_pieces text m) as (pieces & Ht & -> & _).
  apply Forall_map, Forall_forall. intros p Hp. apply strip_Forall.
  rewrite Ht in H. apply Forall_app in H. destruct H as [_ H].
  apply in_split in Hp. destruct Hp as (l1 & l2 & ->).
  rewrite concat_app in H. apply Forall_app in H. destruct H as [_ H].
  simpl in H. apply Forall_app in H. tauto.
Qed.

(** X25: from the web to the file and back: when the texts read are made
    of code points, and the encoding of the file holds the ASCII
    characters and the printable characters of these texts, the save does
    not raise and the file of a run reads back as the chunks of the
    documents that were read, in the order of the URLs. *)
Theorem run_file_reads_back (isprintable encodable : char -> bool)
    (web : str -> nat -> get_result) (convert : str -> outcome str)
    (urls : list str) (discovery_log : list event) :
  (forall c, c < 0x80 -> encodable c = true) ->
  (forall url content,
      In url urls ->
      fst (read_url web convert url) = Returned content ->
      Forall (fun c => code_point c
                       /\ (isprintable c = true -> encodable c = true))
             content) ->
  exists file,
    results_txt (scrapping_notion isprintable encodable web convert
                   (Returned urls, discovery_log)) = Some file
    /\ run_raised (scrapping_notion isprintable encodable web convert
                     (Returned urls, discovery_log)) = None
    /\ raised file = None
    /\ parse_list_literal (written file)
       = Some (flat_map (chunks_of_url web convert) urls).
Proof.
  intros Ha Hcp. unfold scrapping_notion.
  destruct (process_urls web convert urls [] discovery_log) as [Hc _].
  destruct (fold_left (process_url web convert) urls ([], discovery_log))
    as [chunks log].
  cbn [fst results_txt run_raised app] in *. subst chunks.
  assert (Hall : Forall (Forall (fun c => code_point c
                    /\ (isprintable c = true -> encodable c = true)))
                   (flat_map (chunks_of_url web convert) urls)).
  { apply Forall_flat_map, Forall_forall. intros url Hin.
    unfold chunks_of_url.
    destruct (fst (read_url web convert url)) as [content|e] eqn:E;
      [|constructor].
    apply split_markdown_chars. now apply (Hcp url). }
  destruct (saved_list_reads_back isprintable encodable
              (flat_map (chunks_of_url web convert) urls)) as [Hr Hp].
  - revert Hall. apply Forall_impl. intros item. apply Forall_impl. tauto.
  - split; [exact Ha|]. revert Hall. apply Forall_impl. intros item.
    apply Forall_impl. tauto.
  - eexists. split; [reflexivity|]. split; [exact Hr|]. split; [exact Hr|exact Hp].
Qed.

Lemma code_point_check (encodable : char -> bool) s :
  forallb (fun c => c <=? 0x10FFFF) s = true ->
  Forall (fun c => code_point c /\ (false = true -> encodable c = true)) s.
Proof.
  intros H. rewrite forallb_forall in H. apply Forall_forall.
  intros c Hc. split; [|discriminate]. apply N.leb_le. now apply H.
Qed.

Lemma read_three_urls (encodable : char -> bool) url content :
  In url three_urls ->
  fst (read_url web_ok convert_but_doc2 url) = Returned content ->
  Forall (fun c => code_point c /\ (false = true -> encodable c = true)) content.
Proof.
  intros Hin.
  assert (H1 : fst (read_url web_ok convert_but_doc2 (of_string "/doc1"))
               = Returned (of_string "# /doc1")) by reflexivity.
  assert (H2 : fst (read_url web_ok convert_but_doc2 (of_string "/doc2"))
               = Raised "AttributeError"%string) by reflexivity.
  assert (H3 : fst (read_url web_ok convert_but_doc2 (of_string "/doc3"))
               = Returned (of_string "# /doc3")) by reflexivity.
  destruct Hin as [<-|[<-|[<-|[]]]].
  - rewrite H1. intros [= <-]. apply code_point_check. reflexivity.
  - rewrite H2. discriminate.
  - rewrite H3. intros [= <-]. apply code_point_check. reflexivity.
Qed.

Lemma run_file_reads_back_witness :
  exists file,
    results_txt (scrapping_notion (fun _ => false) utf8_encoding web_ok
                   convert_but_doc2 (Returned three_urls, [])) = Some file
    /\ run_raised (scrapping_notion (fun _ => false) utf8_encoding web_ok
                     convert_but_doc2 (Returned three_urls, [])) = None
    /\ raised file = None
    /\ parse_list_literal (written file)
       = Some (flat_map (chunks_of_url web_ok convert_but_doc2) three_urls).
Proof.
  apply (run_file_reads_back (fun _ => false) utf8_encoding web_ok
           convert_but_doc2 three_urls []).
  - apply utf8_holds_ascii.
  - apply read_three_urls.
Defined.

(** X26: a document is read exactly when one of the three requests gets a
    response, whatever its status, and the conversion of the first
    response does not raise; its chunks are then those of the converted
    and post-processed article. *)
Theorem document_read_iff (web : str -> nat -> get_result)
    (convert : str -> outcome str) (url : str) :
  url_fails web convert url = false
  <-> exists k rep content,
        (1 <= k <= 3)%nat
        /\ web url k = Get_response rep
        /\ (forall j, (1 <= j < k)%nat -> exists e, web url j = Get_raises e)
        /\ convert (text rep) = Returned content
        /\ chunks_of_url web convert url
           = split_markdown (normalize_whitespace content) default_max_chunk_size.
Proof.
  unfold url_fails, chunks_of_url, read_url, fetch_url, processing_html.
  simpl retrying. split.
  - destruct (web url 1%nat) as [rep1|e1] eqn:E1; simpl.
    + destruct (convert (text rep1)) as [content|e] eqn:Ec; [|discriminate].
      intros _. exists 1%nat, rep1, content. repeat split; auto; intros; lia.
    + destruct (web url 2%nat) as [rep2|e2] eqn:E2; simpl.
      * destruct (convert (text rep2)) as [content|e] eqn:Ec; [|discriminate].
        intros _. exists 2%nat, rep2, content. repeat split; auto; try lia.
        intros j Hj. assert (j = 1%nat) by lia. subst j. now exists e1.
      * destruct (web url 3%nat) as [rep3|e3] eqn:E3; simpl; [|discriminate].
        destruct (convert (text rep3)) as [content|e] eqn:Ec; [|discriminate].
        intros _. exists 3%nat, rep3, content. repeat split; auto; try lia.
        intros j Hj. assert (j = 1%nat \/ j = 2%nat) as [-> | ->] by lia;
          eauto.
  - intros (k & rep & content & Hk & Hrep & Hfail & Hc & _).
    destruct k as [|[|[|[|k]]]]; try lia.
    + rewrite Hrep. simpl. now rewrite Hc.
    + destruct (Hfail 1%nat ltac:(lia)) as [e1 ->]. simpl.
      rewrite Hrep. simpl. now rewrite Hc.
    + destruct (Hfail 1%nat ltac:(lia)) as [e1 ->].
      destruct (Hfail 2%nat ltac:(lia)) as [e2 ->]. simpl.
      rewrite Hrep. simpl. now rewrite Hc.
Qed.

Lemma document_read_iff_witness :
  url_fails (fun _ => net_two_failures) (fun html => Returned html) [] = false.
Proof.
  apply (document_read_iff (fun _ => net_two_failures) (fun html => Returned html) []).
  exists 3%nat, page_503, (text page_503). split; [lia|].
  split; [reflexivity|]. split; [|split; reflexivity].
  intros j Hj. exists "ConnectionError"%string.
  destruct j as [|[|[|j]]]; try lia; reflexivity.
Defined.

(* ================================================================== *)
(** * The newlines put between the tags *)
(* ================================================================== *)

Lemma separate_tags_pair (r : str) :
  separate_tags (GT :: LT :: r) = GT :: NL :: LT :: separate_tags r.
Proof. reflexivity. Qed.

Lemma separate_tags_other (c c2 : char) (r : str) :
  (c =? GT) && (c2 =? LT) = false ->
  separate_tags (c :: c2 :: r) = c :: separate_tags (c2 :: r).
Proof. intros H. cbn [separate_tags]. now rewrite H. Qed.

Lemma separate_tags_ind (P : str -> Prop) :
  P [] -> (forall c : char, P [c]) ->
  (forall r : str, P r -> P (GT :: LT :: r)) ->
  (forall (c c2 : char) (r : str),
      (c =? GT) && (c2 =? LT) = false -> P (c2 :: r) -> P (c :: c2 :: r)) ->
  forall s, P s.
Proof.
  intros H0 H1 H2 H3 s.
  induction s as [s IH] using (induction_ltof1 _ (@length char)).
  unfold ltof in IH. destruct s as [|c [|c2 r]]; [exact H0|apply H1|].
  destruct ((c =? GT) && (c2 =? LT)) eqn:E.
  - apply andb_true_iff in E. destruct E as [E1 E2].
    apply N.eqb_eq in E1, E2. subst. apply H2. apply IH. simpl. lia.
  - apply H3; [exact E|]. apply IH. simpl. lia.
Qed.

Lemma separate_tags_head (c : char) (r : str) :
  exists r', separate_tags (c :: r) = c :: r'.
Proof.
  destruct r as [|c2 r]; [now exists []|].
  destruct ((c =? GT) && (c2 =? LT)) eqn:E.
  - apply andb_true_iff in E. destruct E as [E1 E2].
    apply N.eqb_eq in E1, E2. subst. now eexists.
  - rewrite separate_tags_other by exact E. now eexists.
Qed.

Lemma without_newlines_cons (c : char) (s : str) :
  without_newlines (c :: s)
  = (if negb (is_nl c) then [c] else []) ++ without_newlines s.
Proof. unfold without_newlines. simpl. now destruct (negb (is_nl c)). Qed.

(** X27: after line 37 no [>] is followed at once by a [<], and nothing
    but newlines was added: without its newlines the text is what it was
    without its newlines. *)
Theorem separate_tags_separates (html : str) :
  has_adjacent_tags (separate_tags html) = false
  /\ without_newlines (separate_tags html) = without_newlines html.
Proof.
  induction html as [|c|r [IH1 IH2]|c c2 r E [IH1 IH2]] using separate_tags_ind.
  - split; reflexivity.
  - split; reflexivity.
  - rewrite separate_tags_pair. split.
    + destruct r as [|x r']; [reflexivity|].
      destruct (separate_tags_head x r') as [r'' Hr]. rewrite Hr in *.
      change (has_adjacent_tags (GT :: NL :: LT :: x :: r''))
        with (((LT =? GT) && (x =? LT)) || has_adjacent_tags (x :: r'')).
      exact IH1.
    + change (without_newlines (GT :: NL :: LT :: separate_tags r))
        with (GT :: LT :: without_newlines (separate_tags r)).
      change (without_newlines (GT :: LT :: r))
        with (GT :: LT :: without_newlines r).
      now rewrite IH2.
  - rewrite separate_tags_other by exact E. split.
    + destruct (separate_tags_head c2 r) as [r' Hr]. rewrite Hr in IH1 |- *.
      change (has_adjacent_tags (c :: c2 :: r'))
        with (((c =? GT) && (c2 =? LT)) || has_adjacent_tags (c2 :: r')).
      now rewrite E, IH1.
    + rewrite !(without_newlines_cons c). now rewrite IH2.
Qed.

Lemma separate_tags_stable s :
  has_adjacent_tags s = false -> separate_tags s = s.
Proof.
  induction s as [|c|r IH|c c2 r E IH] using separate_tags_ind.
  - reflexivity.
  - reflexivity.
  - intros H. destruct r; discriminate.
  - intros H. rewrite separate_tags_other by exact E. f_equal. apply IH.
    change (((c =? GT) && (c2 =? LT)) || has_adjacent_tags (c2 :: r) = false) in H.
    now rewrite E in H.
Qed.

(** X28: line 37 does its work at once: applied to its own result, it
    changes nothing. *)
Theorem separate_tags_idempotent (html : str) :
  separate_tags (separate_tags html) = separate_tags html.
Proof.
  apply separate_tags_stable.
  induction html as [|c|r IH|c c2 r E IH] using separate_tags_ind.
  - reflexivity.
  - reflexivity.
  - rewrite separate_tags_pair.
    destruct r as [|x r']; [reflexivity|].
    destruct (separate_tags_head x r') as [r'' Hr]. rewrite Hr in *.
    change (has_adjacent_tags (GT :: NL :: LT :: x :: r''))
      with (((LT =? GT) && (x =? LT)) || has_adjacent_tags (x :: r'')).
    exact IH.
  - rewrite separate_tags_other by exact E.
    destruct (separate_tags_head c2 r) as [r' Hr]. rewrite Hr in IH |- *.
    change (has_adjacent_tags (c :: c2 :: r'))
      with (((c =? GT) && (c2 =? LT)) || has_adjacent_tags (c2 :: r')).
    now rewrite E, IH.
Qed.
